(** * STAN-RIYAZ chatbot server: a shallow embedding of [server/index.js]

    The development follows the source file top to bottom: JavaScript
    strings and the regular expressions the server uses, the SQLite store
    with the start-up migration, the fact and history helpers, the tone
    detector, the prompt builder, the LLM call with its offline fallback and
    the two Express routes.

    Modelling conventions.
    - A JavaScript string is a [string] of 8-bit characters (the UTF-8 bytes
      of the text).  The [/i] flag of a pattern without the [u] flag acts on
      the ASCII letters.  [toLowerCase] acts on the ASCII letters and on the
      two other characters whose lower case contains an ASCII letter, the
      Kelvin sign and the capital I with dot above; the remaining characters
      lower-case to characters outside ASCII and are left as they are.
    - A plain JavaScript object used as a dictionary is an association list
      in property-creation order, with the one special property name
      [__proto__] treated as the language treats it.
    - The database is a record of tables; a statement either fails with the
      message SQLite reports or yields the next database.  A statement sent
      with a callback completes before its callback runs.  A statement sent
      without one is in flight until it lands: the program does not control
      the order in which the statements in flight land, and the failure of
      one ends the process (an unhandled [error] event).  A request is over
      when the statements it sent have landed.
    - Everything the server does to the outside (statements sent to SQLite,
      console output, calls of the generation provider) is recorded in a
      trace, so that "does not happen" is a statement about the trace. *)

From Stdlib Require Import Bool Arith NArith ZArith Lia List.
From Stdlib Require Import Ascii String.
Import ListNotations.
Open Scope string_scope.
Open Scope bool_scope.

Set Implicit Arguments.

(* ================================================================== *)
(** * JavaScript strings *)
(* ================================================================== *)

Module JsString.

(** [s.includes(needle)]: case-sensitive substring search. *)
Fixpoint includes (needle hay : string) : bool :=
  prefix needle hay ||
  match hay with
  | EmptyString => false
  | String _ hay' => includes needle hay'
  end.

Definition is_upper (c : ascii) : bool :=
  (("A" <=? c)%char && (c <=? "Z")%char).

Definition is_lower (c : ascii) : bool :=
  (("a" <=? c)%char && (c <=? "z")%char).

Definition lower_char (c : ascii) : ascii :=
  if is_upper c then ascii_of_N (N_of_ascii c + 32) else c.

Definition upper_char (c : ascii) : ascii :=
  if is_lower c then ascii_of_N (N_of_ascii c - 32) else c.

(** The bytes of U+212A KELVIN SIGN, whose lower case is "k". *)
Definition kelvin : string :=
  String (ascii_of_N 226) (String (ascii_of_N 132) (String (ascii_of_N 170) "")).

(** The bytes of U+0130 LATIN CAPITAL LETTER I WITH DOT ABOVE. *)
Definition dotted_I : string :=
  String (ascii_of_N 196) (String (ascii_of_N 176) "").

(** Its lower case: "i" followed by U+0307 COMBINING DOT ABOVE. *)
Definition i_dot : string :=
  String "i" (String (ascii_of_N 204) (String (ascii_of_N 135) "")).

(** The two characters outside ASCII whose lower case contains an ASCII
    letter: when [s] begins with one, its lower case and the rest of [s]. *)
Definition special (s : string) : option (string * string) :=
  match s with
  | String c1 (String c2 r2) =>
      if Ascii.eqb c1 (ascii_of_N 196) && Ascii.eqb c2 (ascii_of_N 176)
      then Some (i_dot, r2)
      else match r2 with
           | String c3 r3 =>
               if Ascii.eqb c1 (ascii_of_N 226) && Ascii.eqb c2 (ascii_of_N 132)
                  && Ascii.eqb c3 (ascii_of_N 170)
               then Some ("k", r3)
               else None
           | EmptyString => None
           end
  | _ => None
  end.

(** [s.toLowerCase()] *)
Fixpoint toLowerCase (s : string) : string :=
  match s with
  | EmptyString => EmptyString
  | String c1 r1 =>
      match r1 with
      | String c2 r2 =>
          if Ascii.eqb c1 (ascii_of_N 196) && Ascii.eqb c2 (ascii_of_N 176)
          then i_dot ++ toLowerCase r2
          else match r2 with
               | String c3 r3 =>
                   if Ascii.eqb c1 (ascii_of_N 226) && Ascii.eqb c2 (ascii_of_N 132)
                      && Ascii.eqb c3 (ascii_of_N 170)
                   then String "k" (toLowerCase r3)
                   else String (lower_char c1) (toLowerCase r1)
               | EmptyString => String (lower_char c1) (toLowerCase r1)
               end
      | EmptyString => String (lower_char c1) (toLowerCase r1)
      end
  end.

(** Lower case of the ASCII letters only, character by character: the
    case mapping of a pattern with the [i] flag. *)
Fixpoint ascii_lower (s : string) : string :=
  match s with
  | EmptyString => EmptyString
  | String c s' => String (lower_char c) (ascii_lower s')
  end.

(** White space removed by [trim]: TAB, LF, VT, FF, CR and the space. *)
Definition is_space (c : ascii) : bool :=
  let n := N_of_ascii c in
  ((9 <=? n) && (n <=? 13) || (n =? 32))%N.

Fixpoint trimStart (s : string) : string :=
  match s with
  | EmptyString => EmptyString
  | String c s' => if is_space c then trimStart s' else s
  end.

Fixpoint trimEnd (s : string) : string :=
  match s with
  | EmptyString => EmptyString
  | String c s' =>
      match trimEnd s' with
      | EmptyString => if is_space c then EmptyString else String c EmptyString
      | t => String c t
      end
  end.

(** [s.trim()] *)
Definition trim (s : string) : string := trimEnd (trimStart s).

(** Truthiness of a string value: only the empty string is falsy. *)
Definition truthy (s : string) : bool :=
  match s with EmptyString => false | _ => true end.

(** The text left of [rest] in [s], when [rest] is a suffix of [s]. *)
Definition consumed (s rest : string) : string :=
  substring 0 (length s - length rest) s.

Fixpoint drop (n : nat) (s : string) : string :=
  match n, s with
  | O, _ => s
  | S _, EmptyString => EmptyString
  | S n', String _ s' => drop n' s'
  end.

End JsString.
Import JsString.

(* ================================================================== *)
(** * Regular expressions

    A backtracking matcher for the fragment of the JavaScript syntax that
    the server's four patterns use: literal characters, character classes
    given by ranges, concatenation, alternation, bounded greedy repetition
    (which covers [?]) and numbered capture groups, with or without the
    [i] flag. *)
(* ================================================================== *)

Module Regex.

Inductive regex : Type :=
| Eps
| Chr (c : ascii)
| Class (ranges : list (ascii * ascii))
| Cat (r1 r2 : regex)
| Alt (r1 r2 : regex)
| Rep (r : regex) (lo hi : nat)
| Group (n : nat) (r : regex).

Definition Opt (r : regex) : regex := Rep r 0 1.

(** A literal word. *)
Fixpoint lit (w : string) : regex :=
  match w with
  | EmptyString => Eps
  | String c w' => Cat (Chr c) (lit w')
  end.

(** [a|b|c] *)
Fixpoint alts (rs : list regex) : regex :=
  match rs with
  | [] => Eps
  | [r] => r
  | r :: rs' => Alt r (alts rs')
  end.

Definition captures := list (nat * string).

Fixpoint capture (n : nat) (caps : captures) : option string :=
  match caps with
  | [] => None
  | (m, s) :: caps' => if Nat.eqb n m then Some s else capture n caps'
  end.

(** Character comparison: with the [i] flag both sides are canonicalised
    (to upper case, as the language defines it). *)
Definition canon (icase : bool) (c : ascii) : ascii :=
  if icase then upper_char c else c.

Definition chr_eq (icase : bool) (c d : ascii) : bool :=
  Ascii.eqb (canon icase c) (canon icase d).

Definition in_ranges (ranges : list (ascii * ascii)) (c : ascii) : bool :=
  existsb (fun r => ((fst r <=? c)%char && (c <=? snd r)%char)) ranges.

Definition class_match (icase : bool) (ranges : list (ascii * ascii))
           (c : ascii) : bool :=
  if icase
  then in_ranges ranges c || in_ranges ranges (lower_char c)
       || in_ranges ranges (upper_char c)
  else in_ranges ranges c.

Definition result := (string * captures)%type.
Definition cont := string -> captures -> option result.
Definition matcher := string -> captures -> cont -> option result.

(** Greedy optional iterations: up to [more] further rounds, backing off
    to fewer when the rest of the pattern fails. *)
Fixpoint rep_max (step : matcher) (more : nat) : matcher :=
  fun s caps k =>
    match more with
    | O => k s caps
    | S more' =>
        match step s caps (fun s' caps' => rep_max step more' s' caps' k) with
        | Some m => Some m
        | None => k s caps
        end
    end.

(** Mandatory iterations first, then the optional ones. *)
Fixpoint rep_min (step : matcher) (lo more : nat) : matcher :=
  fun s caps k =>
    match lo with
    | O => rep_max step more s caps k
    | S lo' => step s caps (fun s' caps' => rep_min step lo' more s' caps' k)
    end.

Fixpoint rx (icase : bool) (r : regex) : matcher :=
  fun s caps k =>
    match r with
    | Eps => k s caps
    | Chr c =>
        match s with
        | String d s' => if chr_eq icase c d then k s' caps else None
        | EmptyString => None
        end
    | Class ranges =>
        match s with
        | String d s' => if class_match icase ranges d then k s' caps else None
        | EmptyString => None
        end
    | Cat r1 r2 =>
        rx icase r1 s caps (fun s' caps' => rx icase r2 s' caps' k)
    | Alt r1 r2 =>
        match rx icase r1 s caps k with
        | Some m => Some m
        | None => rx icase r2 s caps k
        end
    | Rep r' lo hi => rep_min (rx icase r') lo (hi - lo) s caps k
    | Group n r' =>
        rx icase r' s caps (fun s' caps' => k s' ((n, consumed s s') :: caps'))
    end.

(** One attempt at the current position: the matched text and captures. *)
Definition match_here (icase : bool) (r : regex) (s : string) : option result :=
  rx icase r s [] (fun s' caps => Some (consumed s s', caps)).

(** [re.exec(s)] for a pattern without the [g] flag: the leftmost match. *)
Fixpoint exec (icase : bool) (r : regex) (s : string) : option result :=
  match match_here icase r s with
  | Some m => Some m
  | None =>
      match s with
      | EmptyString => None
      | String _ s' => exec icase r s'
      end
  end.

(** [re.test(s)] *)
Definition test (icase : bool) (r : regex) (s : string) : bool :=
  match exec icase r s with Some _ => true | None => false end.

(** [m[n]] for a match result [m]: the text of group [n].  A group that
    took no part in the match has no text; the patterns below that read a
    group always set it (see [re_my_name_sets_group]). *)
Definition group (n : nat) (m : result) : string :=
  match n with
  | O => fst m
  | _ => match capture n (snd m) with Some g => g | None => EmptyString end
  end.

End Regex.
Import Regex.

(* ================================================================== *)
(** * Tone detection *)
(* ================================================================== *)

Inductive Tone : Type := empathetic | playful | neutral.

Definition tone_text (t : Tone) : string :=
  match t with
  | empathetic => "empathetic"
  | playful => "playful"
  | neutral => "neutral"
  end.

Definition empathetic_words : list string :=
  ["sad"; "depressed"; "unhappy"; "down"; "not good"; "worried"].

Definition playful_words : list string :=
  ["joke"; "roast"; "funny"; "lol"; "haha"].

(** [/(sad|depressed|unhappy|down|not good|worried)/] *)
Definition re_empathetic : regex := Group 1 (alts (map lit empathetic_words)).

(** [/(joke|roast|funny|lol|haha)/] *)
Definition re_playful : regex := Group 1 (alts (map lit playful_words)).

Definition detectTone (message : string) : Tone :=
  let m := toLowerCase message in
  if test false re_empathetic m then empathetic
  else if test false re_playful m then playful
  else neutral.

(* ================================================================== *)
(** * The SQLite store *)
(* ================================================================== *)

Module Store.

(** A row of [memory (user_id TEXT, fact_key TEXT, fact_value TEXT)]. *)
Record fact : Type := Fact {
  user_id : string;
  fact_key : string;
  fact_value : string
}.

(** A row of [history (user_id, message, reply, tone, time)]. *)
Record entry : Type := Entry {
  h_user : string;
  h_message : string;
  h_reply : string;
  h_tone : string;
  h_time : Z
}.

(** A fact table: its rows in rowid order, and whether it was created
    with [UNIQUE(user_id, fact_key)]. *)
Record table : Type := Table {
  uniq : bool;
  rows : list fact
}.

(** The database file: [memory] and [memory_old] may be absent. *)
Record database : Type := Database {
  memory : option table;
  memory_old : option table;
  history : list entry
}.

(** The statements the server sends. *)
Inductive stmt : Type :=
| PragmaTableInfo
| AlterRename
| CreateMemory
| CopyFromOld
| DropOld
| Upsert (u k v : string)
| SelectFacts (u : string)
| InsertHistory (e : entry).

Definition same_key (u k : string) (r : fact) : bool :=
  String.eqb (user_id r) u && String.eqb (fact_key r) k.

Definition key_of (r : fact) : string * string := (user_id r, fact_key r).

(** [INSERT ... ON CONFLICT(user_id, fact_key) DO UPDATE SET
    fact_value = excluded.fact_value] *)
Fixpoint upsert (u k v : string) (rs : list fact) : list fact :=
  match rs with
  | [] => [Fact u k v]
  | r :: rs' =>
      if same_key u k r then Fact (user_id r) (fact_key r) v :: rs'
      else r :: upsert u k v rs'
  end.

(** [INSERT OR IGNORE] of one row: dropped if the table is [UNIQUE] and
    already holds the key. *)
Definition insert_or_ignore (t : table) (r : fact) : table :=
  if uniq t && existsb (same_key (user_id r) (fact_key r)) (rows t)
  then t
  else Table (uniq t) (rows t ++ [r]).

Definition no_such_table (name : string) : string :=
  "SQLITE_ERROR: no such table: " ++ name.

(** What a statement does to the database, or the error SQLite reports. *)
Definition execute (s : stmt) (d : database) : string + database :=
  match s with
  | PragmaTableInfo => inr d
  | AlterRename =>
      match memory d, memory_old d with
      | None, _ => inl (no_such_table "memory")
      | Some _, Some _ =>
          inl "SQLITE_ERROR: there is already another table or index with this name: memory_old"
      | Some t, None => inr (Database None (Some t) (history d))
      end
  | CreateMemory =>
      match memory d with
      | Some _ => inr d
      | None => inr (Database (Some (Table true [])) (memory_old d) (history d))
      end
  | CopyFromOld =>
      match memory d, memory_old d with
      | None, _ => inl (no_such_table "memory")
      | Some _, None => inl (no_such_table "memory_old")
      | Some t, Some old =>
          inr (Database (Some (fold_left insert_or_ignore (rows old) t))
                        (memory_old d) (history d))
      end
  | DropOld => inr (Database (memory d) None (history d))
  | Upsert u k v =>
      match memory d with
      | None => inl (no_such_table "memory")
      | Some t =>
          if uniq t
          then inr (Database (Some (Table true (upsert u k v (rows t))))
                             (memory_old d) (history d))
          else inl "SQLITE_ERROR: ON CONFLICT clause does not match any PRIMARY KEY or UNIQUE constraint"
      end
  | SelectFacts _ =>
      match memory d with
      | None => inl (no_such_table "memory")
      | Some _ => inr d
      end
  | InsertHistory e =>
      inr (Database (memory d) (memory_old d) (history d ++ [e]))
  end.

(** Insertion into a list ordered by [fact_key] (bytewise), after the rows
    of smaller keys. *)
Fixpoint insert_by_key (r : fact) (l : list fact) : list fact :=
  match l with
  | [] => [r]
  | x :: l' =>
      if String.leb (fact_key r) (fact_key x) then r :: l
      else x :: insert_by_key r l'
  end.

Definition sort_by_key (l : list fact) : list fact :=
  fold_right insert_by_key [] l.

(** The rows of a user in the order SQLite serves them: through the index
    of the constraint, by [fact_key], when the table has it; in rowid order
    otherwise. *)
Definition rows_of (u : string) (t : table) : list fact :=
  let mine := filter (fun r => String.eqb (user_id r) u) (rows t) in
  if uniq t then sort_by_key mine else mine.

(** [SELECT fact_key, fact_value FROM memory WHERE user_id = ?] *)
Definition select_facts (u : string) (d : database) : list (string * string) :=
  match memory d with
  | None => []
  | Some t => map (fun r => (fact_key r, fact_value r)) (rows_of u t)
  end.

(** A migrated store: the fact table exists with the constraint, which
    SQLite enforces, so no (user_id, fact_key) is repeated. *)
Definition migrated (d : database) : Prop :=
  exists rs, memory d = Some (Table true rs) /\ NoDup (map key_of rs).

End Store.
Import Store.

(* ================================================================== *)
(** * The server's world: environment, trace and the monad of effects *)
(* ================================================================== *)

Inductive level : Type := Log | Error.

Inductive event : Type :=
| Sql (s : stmt)
| Console (l : level) (args : list string)
| Generate (prompt : string)
| Uncaught (message : string).

(** Outcome of [model.generateContent(prompt)] followed by
    [result.response.text()]: the text, or the message of the error thrown. *)
Inductive provider_result : Type :=
| Generated (text : string)
| Thrown (message : string).

(** What the process is started with and runs against. *)
Record Env : Type := MkEnv {
  (** [genAI]: the provider client when [MY_API_KEY] is set, else null *)
  genAI : option (string -> provider_result);
  (** failures of the storage layer itself (I/O, locking, a foreign
      schema), per statement; [None] lets the statement run *)
  io_error : stmt -> option string;
  (** which of [n] statements in flight completes next (taken modulo [n];
      [0] is the one sent first) *)
  lands : nat -> nat;
  (** [Date.now()] *)
  now : Z
}.

(** The database, what has happened so far, and the statements sent
    without a callback that have not landed yet, in the order sent. *)
Record world : Type := World {
  db : database;
  trace : list event;
  inflight : list stmt
}.

Definition M (A : Type) : Type := world -> A * world.

Definition ret {A} (a : A) : M A := fun w => (a, w).

Definition bind {A B} (m : M A) (f : A -> M B) : M B :=
  fun w => let (a, w') := m w in f a w'.

Notation "x <- m ;; k" := (bind m (fun x => k))
  (at level 61, m at next level, right associativity).
Notation "m ;;; k" := (bind m (fun _ => k))
  (at level 61, right associativity).

Definition emit (e : event) : M unit :=
  fun w => (tt, World (db w) (trace w ++ [e]) (inflight w)).

Definition console_error (args : list string) : M unit := emit (Console Error args).
Definition console_log (args : list string) : M unit := emit (Console Log args).

(** A statement completes: the error, or the next database. *)
Definition complete (env : Env) (s : stmt) (d : database) : string + database :=
  match io_error env s with
  | Some e => inl e
  | None => Store.execute s d
  end.

Fixpoint remove_nth {A} (i : nat) (l : list A) : list A :=
  match i, l with
  | _, [] => []
  | O, _ :: l' => l'
  | S i', x :: l' => x :: remove_nth i' l'
  end.

(** The statement with a callback completes. *)
Definition finish (env : Env) (s : stmt) (w : world) : option string * world :=
  match complete env s (db w) with
  | inl e => (Some e, w)
  | inr d' => (None, World d' (trace w) (inflight w))
  end.

(** A statement with a callback among the statements in flight: those the
    environment lets complete before it land first.  When one of them fails,
    the process ends with the unhandled error and the callback is not run
    (the model hands it the error, to stay total). *)
Fixpoint race (env : Env) (fuel : nat) (s : stmt) (w : world) : option string * world :=
  match fuel, inflight w with
  | S fuel', _ :: _ =>
      let i := lands env (S (List.length (inflight w))) mod S (List.length (inflight w)) in
      match nth_error (inflight w) i with
      | None => finish env s w
      | Some s' =>
          match complete env s' (db w) with
          | inr d' => race env fuel' s (World d' (trace w) (remove_nth i (inflight w)))
          | inl e => (Some e, World (db w) (trace w ++ [Uncaught e]) [])
          end
      end
  | _, _ => finish env s w
  end.

(** [db.run(sql, cb)], [db.get(sql, cb)]: send the statement; [cb] receives
    the error, if any. *)
Definition db_run (env : Env) (s : stmt) : M (option string) :=
  emit (Sql s) ;;;
  fun w => race env (List.length (inflight w)) s w.

(** [db.run(sql, params)] without a callback: the statement is sent and the
    caller goes on. *)
Definition db_send (env : Env) (s : stmt) : M unit :=
  emit (Sql s) ;;;
  fun w => (tt, World (db w) (trace w) (inflight w ++ [s])).

(** The statements in flight land, in the order the environment picks; a
    failure ends the process with the unhandled error, and what was still in
    flight is lost. *)
Fixpoint settle_from (env : Env) (fuel : nat) (l : list stmt) (d : database)
  : database * option string :=
  match fuel with
  | O => (d, None)
  | S fuel' =>
      let i := lands env (List.length l) mod List.length l in
      match nth_error l i with
      | None => (d, None)
      | Some s =>
          match complete env s d with
          | inl e => (d, Some e)
          | inr d' => settle_from env fuel' (remove_nth i l) d'
          end
      end
  end.

Definition settle (env : Env) : M unit :=
  fun w =>
    let (d', err) := settle_from env (List.length (inflight w)) (inflight w) (db w) in
    (tt, World d'
               (trace w ++ match err with Some e => [Uncaught e] | None => [] end)
               []).

(** [db.all(sql, [u], cb)]: [cb] receives the error or the rows. *)
Definition db_all (env : Env) (u : string) : M (string + list (string * string)) :=
  err <- db_run env (SelectFacts u) ;;
  fun w =>
    match err with
    | Some e => (inl e, w)
    | None => (inr (select_facts u (db w)), w)
    end.

(** A run from a quiet start: nothing has happened, nothing is in flight. *)
Definition run {A} (m : M A) (d : database) : A * world := m (World d [] []).

(* ================================================================== *)
(** * Database migration *)
(* ================================================================== *)

Definition migrateMemoryTable (env : Env) : M unit :=
  err <- db_run env PragmaTableInfo ;;
  match err with
  | Some e => console_error ["Error checking memory table:"; e]
  | None =>
      (* Step 1: rename old table if exists *)
      renameErr <- db_run env AlterRename ;;
      let after_rename : M unit :=
        (* Step 2: create new table with UNIQUE constraint *)
        createErr <- db_run env CreateMemory ;;
        match createErr with
        | Some e => console_error ["Error creating new memory table:"; e]
        | None =>
            (* Step 3: copy old data *)
            insertErr <- db_run env CopyFromOld ;;
            match insertErr with
            | Some e => console_error ["Error copying data:"; e]
            | None => ret tt
            end ;;;
            (* Step 4: drop old table *)
            dropErr <- db_run env DropOld ;;
            match dropErr with
            | Some e => console_error ["Error dropping old table:"; e]
            | None => console_log ["✅ Memory table migrated successfully"]
            end
        end in
      match renameErr with
      | Some e =>
          if negb (includes "no such table" e)
          then console_error ["Error renaming memory table:"; e]
          else after_rename
      | None => after_rename
      end
  end.

(* ================================================================== *)
(** * Plain objects used as dictionaries, and [JSON.stringify] *)
(* ================================================================== *)

Module JsObject.

(** Own string-valued properties, in creation order. *)
Definition obj := list (string * string).

Definition empty : obj := [].

(** [o[k]], own properties only. *)
Fixpoint get (k : string) (o : obj) : option string :=
  match o with
  | [] => None
  | (k', v) :: o' => if String.eqb k k' then Some v else get k o'
  end.

Fixpoint put (k v : string) (o : obj) : obj :=
  match o with
  | [] => [(k, v)]
  | (k', v') :: o' =>
      if String.eqb k k' then (k', v) :: o' else (k', v') :: put k v o'
  end.

(** [o[k] = v] for a string [v].  Assigning to [__proto__] reaches the
    setter inherited from [Object.prototype], which ignores a value that is
    neither an object nor null: no property is created. *)
Definition set (k v : string) (o : obj) : obj :=
  if String.eqb k "__proto__" then o else put k v o.

Definition is_digit (c : ascii) : bool := (("0" <=? c)%char && (c <=? "9")%char).

Fixpoint decimal (acc : N) (s : string) : option N :=
  match s with
  | EmptyString => Some acc
  | String c s' =>
      if is_digit c
      then decimal (acc * 10 + (N_of_ascii c - 48))%N s'
      else None
  end.

(** A property name that is an array index: the canonical decimal form
    of an integer below [2^32 - 1]. *)
Definition array_index (k : string) : option N :=
  match k with
  | EmptyString => None
  | String c rest =>
      if Ascii.eqb c "0" && negb (String.eqb rest EmptyString) then None
      else match decimal 0 k with
           | Some n => if (n <? 4294967295)%N then Some n else None
           | None => None
           end
  end.

Fixpoint insert_sorted (x : N * (string * string))
         (l : list (N * (string * string))) : list (N * (string * string)) :=
  match l with
  | [] => [x]
  | y :: l' => if (fst x <=? fst y)%N then x :: l else y :: insert_sorted x l'
  end.

Definition indexed (o : obj) : list (N * (string * string)) :=
  fold_right
    (fun p acc => match array_index (fst p) with
                  | Some n => insert_sorted (n, p) acc
                  | None => acc
                  end) [] o.

(** Own properties in enumeration order: array indices ascending, then
    the other names in creation order. *)
Definition entries (o : obj) : list (string * string) :=
  map snd (indexed o) ++
  filter (fun p => match array_index (fst p) with Some _ => false | None => true end) o.

(** [Object.keys(o)] *)
Definition keys (o : obj) : list string := map fst (entries o).

Definition dquote_char : ascii := ascii_of_N 34.

Definition hex_digit (n : N) : ascii :=
  if (n <? 10)%N then ascii_of_N (48 + n) else ascii_of_N (87 + n).

Definition quote_char (c : ascii) : string :=
  let n := N_of_ascii c in
  if Ascii.eqb c dquote_char then String "\" (String dquote_char "")
  else if Ascii.eqb c "\" then "\\"
  else if (n =? 8)%N then "\b"
  else if (n =? 9)%N then "\t"
  else if (n =? 10)%N then "\n"
  else if (n =? 12)%N then "\f"
  else if (n =? 13)%N then "\r"
  else if (n <? 32)%N
       then "\u00" ++ String (hex_digit (n / 16)) (String (hex_digit (n mod 16)) "")
  else String c "".

Fixpoint quote_body (s : string) : string :=
  match s with
  | EmptyString => EmptyString
  | String c s' => quote_char c ++ quote_body s'
  end.

Definition dquote : string := String dquote_char "".

Definition quote (s : string) : string := dquote ++ quote_body s ++ dquote.

Fixpoint join (sep : string) (l : list string) : string :=
  match l with
  | [] => ""
  | [x] => x
  | x :: l' => x ++ sep ++ join sep l'
  end.

(** [JSON.stringify(o)] *)
Definition stringify (o : obj) : string :=
  "{" ++ join "," (map (fun p => quote (fst p) ++ ":" ++ quote (snd p)) (entries o)) ++ "}".

End JsObject.

Definition obj : Type := JsObject.obj.

(* ================================================================== *)
(** * Utility functions *)
(* ================================================================== *)

(** Save a fact (overwrite if exists).  [db.run] is given no callback. *)
Definition saveFact (env : Env) (userId key value : string) : M unit :=
  db_send env (Upsert userId key value).

(** [facts[r.fact_key] = r.fact_value] *)
Definition assign (facts : obj) (r : string * string) : obj :=
  JsObject.set (fst r) (snd r) facts.

(** The callback of [db.all] in [getFacts]. *)
Definition facts_of (res : string + list (string * string)) : obj :=
  match res with
  | inl _ => JsObject.empty
  | inr rows => fold_left assign rows JsObject.empty
  end.

(** Get all facts. *)
Definition getFacts (env : Env) (userId : string) : M obj :=
  res <- db_all env userId ;;
  ret (facts_of res).

(** Save history.  [db.run] is given no callback. *)
Definition saveHistory (env : Env) (userId message reply tone : string) : M unit :=
  db_send env (InsertHistory (Entry userId message reply tone (now env))).

(* ================================================================== *)
(** * Prompt builder *)
(* ================================================================== *)

Definition nl : string := String (ascii_of_N 10) "".

Definition persona : string :=
  "You are a helpful chatbot named 'Riyaz Assistant'. Keep replies concise.".

Definition toneHint (tone : Tone) : string :=
  match tone with
  | empathetic => "Respond with empathy, warm and short."
  | playful => "Respond playful and light-hearted."
  | neutral => "Respond neutrally and helpfully."
  end.

Definition buildPrompt (userId message : string) (facts : obj) (tone : Tone) : string :=
  let factsText :=
    match JsObject.keys facts with
    | [] => "No known facts about the user yet."
    | _ => "Known facts about the USER: " ++ JsObject.stringify facts
    end in
  persona ++ nl ++ factsText ++ nl ++ toneHint tone ++ nl ++
  "User: " ++ message ++ nl ++ "Assistant:".

(* ================================================================== *)
(** * LLM call *)
(* ================================================================== *)

Record llm : Type := Llm {
  text : string;
  simulated : bool
}.

Definition reply_empathetic : string :=
  "I'm sorry you're feeling that way — I hear you. Tell me more, and I'll help.".

Definition reply_playful : string :=
  "Haha nice! You're on fire — tell me more and I'll roast you gently 😉".

Definition reply_neutral : string :=
  "Thanks for telling me. I can help with that — what would you like to try next?".

(** The result is [inl] when the call rejects and [inr] when it resolves. *)
Definition callLLM (env : Env) (prompt : string) : M (string + llm) :=
  match genAI env with
  | None =>
      (* fallback simulation *)
      let reply :=
        if includes "empathetic" prompt then reply_empathetic
        else if includes "playful" prompt then reply_playful
        else reply_neutral in
      ret (inr (Llm reply true))
  | Some generateContent =>
      console_log ["✅ Gemini API called with prompt:"; substring 0 80 prompt ++ "..."] ;;;
      emit (Generate prompt) ;;;
      match generateContent prompt with
      | Generated text => ret (inr (Llm text false))
      | Thrown message =>
          console_error ["Gemini error:"; message] ;;;
          ret (inr (Llm ("Error calling Gemini: " ++ message) true))
      end
  end.

(* ================================================================== *)
(** * Express routes *)
(* ================================================================== *)

(** [req.body]: the two fields the chat route reads, each possibly absent. *)
Record body : Type := Body {
  b_user_id : option string;
  b_message : option string
}.

Inductive payload : Type :=
| ErrorJson (error : string)
| ErrorDetailJson (error detail : string)
| ReplyJson (reply : string) (tone : Tone) (simulated : bool)
| FactsJson (facts : obj).

Record response : Type := Response {
  status : nat;
  json : payload
}.

(** [/my name is ([A-Za-z ]{1,40})/i] *)
Definition re_my_name : regex :=
  Cat (lit "my name is ")
      (Group 1 (Rep (Class [("A", "Z"); ("a", "z"); (" ", " ")]%char) 1 40)).

(** [/what(('| i)s)? my name\??/i] *)
Definition re_what_name : regex :=
  Cat (lit "what")
      (Cat (Opt (Group 1 (Cat (Group 2 (Alt (Chr "'") (lit " i"))) (Chr "s"))))
           (Cat (lit " my name") (Opt (Chr "?")))).

Definition dont_know : string :=
  "I don't know your name yet. What should I call you?".

(** The callback given to [getFacts] in the chat route. *)
Definition chat_with_facts (env : Env) (user_id message : string) (facts : obj)
  : M response :=
  (* Detect tone *)
  let tone := detectTone message in
  (* Capture name if user says "my name is X" *)
  facts <-
    match exec true re_my_name message with
    | Some nameMatch =>
        saveFact env user_id "name" (trim (group 1 nameMatch)) ;;;
        ret (JsObject.set "name" (trim (group 1 nameMatch)) facts)
    | None => ret facts
    end ;;
  (* Handle "what is my name" explicitly *)
  if test true re_what_name message then
    match JsObject.get "name" facts with
    | Some name =>
        if truthy name
        then ret (Response 200 (ReplyJson ("Your name is " ++ name ++ ".") tone true))
        else ret (Response 200 (ReplyJson dont_know tone true))
    | None => ret (Response 200 (ReplyJson dont_know tone true))
    end
  else
    (* Build LLM prompt *)
    let prompt := buildPrompt user_id message facts tone in
    r <- callLLM env prompt ;;
    match r with
    | inr llm =>
        (* Save to history *)
        saveHistory env user_id message (text llm) (tone_text tone) ;;;
        ret (Response 200 (ReplyJson (text llm) tone (simulated llm)))
    | inl e =>
        console_error [e] ;;;
        ret (Response 500 (ErrorDetailJson "LLM call failed" e))
    end.

(** [!v] for a field of the body: absent, or the empty string. *)
Definition missing (v : option string) : bool :=
  match v with
  | Some s => negb (truthy s)
  | None => true
  end.

Definition field (v : option string) : string :=
  match v with
  | Some s => s
  | None => EmptyString
  end.

(** [app.post('/chat', ...)]; [req_body] is [None] when the request has no
    parsed body.  The request is over when the statements it sent have
    landed. *)
Definition chat (env : Env) (req_body : option body) : M response :=
  let b := match req_body with Some b => b | None => Body None None end in
  let user_id := b_user_id b in
  let message := b_message b in
  if missing user_id || missing message
  then ret (Response 400 (ErrorJson "Provide user_id and message"))
  else
    res <- (facts <- getFacts env (field user_id) ;;
            chat_with_facts env (field user_id) (field message) facts) ;;
    settle env ;;;
    ret res.

(** [app.get('/memory/:user_id', ...)] *)
Definition memory_route (env : Env) (user_id : string) : M response :=
  facts <- getFacts env user_id ;;
  ret (Response 200 (FactsJson facts)).

(** An environment in which the storage layer itself never fails, the
    statements in flight land in the order sent and no key is configured;
    the clock reads [t]. *)
Definition offline (t : Z) : Env := MkEnv None (fun _ => None) (fun _ => 0) t.

(** The same, except that of the statements in flight the one sent last
    lands first. *)
Definition overtaking (t : Z) : Env := MkEnv None (fun _ => None) (fun n => n - 1) t.

(** The database file on the very first start. *)
Definition fresh : database := Database None None [].

(** A migrated store with no facts yet. *)
Definition ready : database := Database (Some (Table true [])) None [].

(** A well-formed chat request. *)
Definition post (env : Env) (user_id message : string) : M response :=
  chat env (Some (Body (Some user_id) (Some message))).

(* ================================================================== *)
(** * Vocabulary of the statements *)
(* ================================================================== *)

(** A continuation that always answers. *)
Definition total (k : cont) : Prop := forall s caps, k s caps <> None.

(** A matcher whose every answer is an answer of its continuation. *)
Definition answers_from_cont (step : matcher) : Prop :=
  forall s caps k m, step s caps k = Some m -> exists s' caps', k s' caps' = Some m.

(** [x] spells the lower-case word [w] up to letter case: character by
    character, [x] has the character of [w], or its upper-case form, or, for
    "k", the Kelvin sign (the one character outside ASCII whose lower case is
    an ASCII letter alone). *)
Fixpoint spells (w x : string) : Prop :=
  match w with
  | EmptyString => x = EmptyString
  | String c w' =>
      exists x', spells w' x' /\
                 (x = String c x' \/ x = String (upper_char c) x' \/
                  (c = "k"%char /\ x = kelvin ++ x'))
  end.

(** [w] occurs in [m] up to letter case: a stretch of [m] spells it. *)
Definition occurs_ci (w m : string) : Prop :=
  exists a x b, m = a ++ x ++ b /\ spells w x.

Definition mentions (ws : list string) (m : string) : Prop :=
  exists w, In w ws /\ occurs_ci w m.

(** An ASCII character that is not an upper-case letter. *)
Definition plain (c : ascii) : bool :=
  negb (is_upper c) && (N_of_ascii c <? 128)%N.

(** Every character of [s] satisfies [p]. *)
Fixpoint all_chars (p : ascii -> bool) (s : string) : bool :=
  match s with
  | EmptyString => true
  | String c s' => p c && all_chars p s'
  end.

(** The last character of a string. *)
Fixpoint last_char (s : string) : option ascii :=
  match s with
  | EmptyString => None
  | String c EmptyString => Some c
  | String _ s' => last_char s'
  end.

(** The first character of a string. *)
Definition first_char (s : string) : option ascii :=
  match s with
  | EmptyString => None
  | String c _ => Some c
  end.

(** A word as the tone patterns have them: not empty, of plain characters,
    not ending in "i". *)
Definition keyword (w : string) : bool :=
  all_chars plain w &&
  match last_char w with
  | Some c => negb (Ascii.eqb c "i")
  | None => false
  end.

(** The storage layer itself never fails: a statement can only fail for
    what the database holds. *)
Definition storage_sound (env : Env) : Prop := forall s, io_error env s = None.

(** The fact table of [d] holds exactly one row for [(u, k)], with value
    [v], and no key twice. *)
Definition one_row (d : database) (u k v : string) : Prop :=
  exists rs, memory d = Some (Table true rs) /\
             NoDup (map key_of rs) /\
             filter (same_key u k) rs = [Fact u k v].

(** [saveFact(u, k, v1)] followed by [saveFact(u, k, v2)], and, when both
    statements have landed, a [getFacts(u)]. *)
Definition save_twice (env : Env) (u k v1 v2 : string) : M obj :=
  saveFact env u k v1 ;;; saveFact env u k v2 ;;; settle env ;;; getFacts env u.


(** One row is left for the key, holding the value of the save that landed
    last, which is [v2] when the statements land in the order sent; the
    dictionary maps an ordinary key to that value. *)
Definition overwritten_by_last (env : Env) (d : database) (u k v1 v2 : string) : Prop :=
  let (facts, w) := run (save_twice env u k v1 v2) d in
  exists v,
    (v = v1 \/ v = v2) /\
    (lands env 2 mod 2 = 0 -> v = v2) /\
    one_row (db w) u k v /\
    (k <> "__proto__" -> JsObject.get k facts = Some v).

(** The storage layer fails at the migration statement [s0] with [e] and
    nowhere else. *)
Definition failing_at (s0 : stmt) (e : string) (t : Z) : Env :=
  MkEnv None
        (fun s => match s0, s with
                  | PragmaTableInfo, PragmaTableInfo
                  | AlterRename, AlterRename
                  | CreateMemory, CreateMemory
                  | CopyFromOld, CopyFromOld
                  | DropOld, DropOld => Some e
                  | _, _ => None
                  end) (fun _ => 0) t.

(** A store left by an earlier version: no constraint, a repeated key. *)
Definition legacy : database :=
  Database (Some (Table false [Fact "u1" "name" "Alex"; Fact "u1" "name" "Sam";
                               Fact "u2" "name" "Kim"]))
           None [].

(** A request that lacks a field: no body, or a body in which [user_id] or
    [message] is absent (or empty, which [!v] cannot tell apart). *)
Definition lacks_field (req_body : option body) : Prop :=
  match req_body with
  | None => True
  | Some b => missing (b_user_id b) = true \/ missing (b_message b) = true
  end.

(** The dictionary the route holds when it reaches the name question: the
    stored facts, with the name this very message gives, if it gives one. *)
Definition known_facts (env : Env) (d : database) (user_id message : string) : obj :=
  let facts := fst (run (getFacts env user_id) d) in
  match exec true re_my_name message with
  | Some nameMatch => JsObject.set "name" (trim (group 1 nameMatch)) facts
  | None => facts
  end.

(** The name on record for a user when a request arrives: the name the
    message itself gives, if it gives one; else the value of the user's
    "name" row in the fact table (the last one, should a table without the
    constraint hold several); none when there is no such row or the table
    cannot be read. *)
Definition name_on_record (env : Env) (d : database) (user_id message : string)
  : option string :=
  match exec true re_my_name message with
  | Some nameMatch => Some (trim (group 1 nameMatch))
  | None =>
      match io_error env (SelectFacts user_id), memory d with
      | None, Some t =>
          option_map fact_value
                     (hd_error (rev (filter (same_key user_id "name") (rows t))))
      | _, _ => None
      end
  end.

(** The reply to the name question, given [facts.name]. *)
Definition recall_reply (name : option string) : string :=
  match name with
  | Some n => if truthy n then "Your name is " ++ n ++ "." else dont_know
  | None => dont_know
  end.

(** The request [(u, m)] on the database [d] is answered by name recall:
    status 200; a reply that contains the name on record (and is "Your name
    is <name>." when that name is not empty) or, with no name on record, says
    so; no call of the provider; no history row written. *)
Definition recalls (env : Env) (u m : string) (d : database) : Prop :=
  let (res, w) := run (post env u m) d in
  status res = 200 /\
  (exists reply tone sim,
     json res = ReplyJson reply tone sim /\
     match name_on_record env d u m with
     | Some name =>
         includes name reply = true /\
         (truthy name = true -> reply = "Your name is " ++ name ++ ".")
     | None => reply = dont_know
     end) /\
  (forall p, ~ In (Generate p) (trace w)) /\
  (forall e, ~ In (Sql (InsertHistory e)) (trace w)) /\
  history (db w) = history d.

(** A configured provider over a sound storage layer, statements landing in
    the order sent. *)
Definition live (gen : string -> provider_result) (t : Z) : Env :=
  MkEnv (Some gen) (fun _ => None) (fun _ => 0) t.

(** One user who has told their name. *)
Definition alex_db : database :=
  Database (Some (Table true [Fact "u1" "name" "Alex"])) None
           [Entry "u1" "my name is Alex" reply_neutral "neutral" 0].

(** Two users, one fact each. *)
Definition two_users : database :=
  Database (Some (Table true [Fact "u1" "name" "Sam"; Fact "u2" "name" "Kim"]))
           None [].

(** [c] occurs in [w]. *)
Fixpoint has_char (c : ascii) (w : string) : bool :=
  match w with
  | EmptyString => false
  | String d w' => Ascii.eqb c d || has_char c w'
  end.

(** The facts clause of the prompt ([factsText] in [buildPrompt]). *)
Definition factsText (facts : obj) : string :=
  match JsObject.keys facts with
  | [] => "No known facts about the user yet."
  | _ => "Known facts about the USER: " ++ JsObject.stringify facts
  end.

(** The canned reply the offline branch of [callLLM] gives for a prompt. *)
Definition canned (prompt : string) : string :=
  if includes "empathetic" prompt then reply_empathetic
  else if includes "playful" prompt then reply_playful
  else reply_neutral.

(** The same choice, read off the parts of the prompt that can vary: the
    facts clause, the tone and the message. *)
Definition offline_choice (tone : Tone) (facts : obj) (message : string) : string :=
  if includes "empathetic" (factsText facts) || includes "empathetic" message
  then reply_empathetic
  else if match tone with playful => true | _ => false end
          || includes "playful" (factsText facts) || includes "playful" message
       then reply_playful
       else reply_neutral.

(** The prompt the chat route builds for a request. *)
Definition prompt_of (env : Env) (d : database) (user_id message : string) : string :=
  buildPrompt user_id message (known_facts env d user_id message) (detectTone message).

(** What [callLLM] resolves to. *)
Definition llm_of (env : Env) (prompt : string) : llm :=
  match genAI env with
  | None => Llm (canned prompt) true
  | Some generateContent =>
      match generateContent prompt with
      | Generated text => Llm text false
      | Thrown message => Llm ("Error calling Gemini: " ++ message) true
      end
  end.

(** What [callLLM] adds to the trace. *)
Definition llm_events (env : Env) (prompt : string) : list event :=
  match genAI env with
  | None => []
  | Some generateContent =>
      [Console Log ["✅ Gemini API called with prompt:"; substring 0 80 prompt ++ "..."];
       Generate prompt] ++
      match generateContent prompt with
      | Generated _ => []
      | Thrown message => [Console Error ["Gemini error:"; message]]
      end
  end.

(** The history row the chat route writes for a generated reply. *)
Definition history_row (env : Env) (d : database) (user_id message : string) : entry :=
  Entry user_id message
        (text (llm_of env (prompt_of env d user_id message)))
        (tone_text (detectTone message)) (now env).

(** The upsert a request sends: the name its message gives, if any. *)
Definition name_upsert (user_id message : string) : list stmt :=
  match exec true re_my_name message with
  | Some nameMatch => [Upsert user_id "name" (trim (group 1 nameMatch))]
  | None => []
  end.

(** The statements a well-formed request sends without a callback, in the
    order sent. *)
Definition sent (env : Env) (d : database) (user_id message : string) : list stmt :=
  (name_upsert user_id message ++
   if test true re_what_name message then []
   else [InsertHistory (history_row env d user_id message)])%list.

(** What a well-formed request has put in the trace when it answers. *)
Definition request_trace (env : Env) (d : database) (user_id message : string)
  : list event :=
  (Sql (SelectFacts user_id) :: map Sql (name_upsert user_id message) ++
   if test true re_what_name message then []
   else (llm_events env (prompt_of env d user_id message) ++
         [Sql (InsertHistory (history_row env d user_id message))]))%list.

(** The answer of a well-formed request. *)
Definition answer (env : Env) (d : database) (user_id message : string) : response :=
  if test true re_what_name message
  then Response 200 (ReplyJson (recall_reply (JsObject.get "name"
                                                (known_facts env d user_id message)))
                               (detectTone message) true)
  else Response 200 (ReplyJson (text (llm_of env (prompt_of env d user_id message)))
                               (detectTone message)
                               (simulated (llm_of env (prompt_of env d user_id message)))).

Definition is_upsert (e : event) : bool :=
  match e with Sql (Upsert _ _ _) => true | _ => false end.

Definition is_insert (e : event) : bool :=
  match e with Sql (InsertHistory _) => true | _ => false end.

Definition is_generate (e : event) : bool :=
  match e with Generate _ => true | _ => false end.

Definition is_uncaught (e : event) : bool :=
  match e with Uncaught _ => true | _ => false end.

(** The process ended with an unhandled error. *)
Definition exited (w : world) : Prop := exists e, In (Uncaught e) (trace w).

(** The rows of the fact table for one (user, key). *)
Definition fact_rows (d : database) (u k : string) : list fact :=
  match memory d with
  | Some t => filter (same_key u k) (rows t)
  | None => []
  end.

(** A character the name pattern admits: a letter or a space. *)
Definition name_char (c : ascii) : bool :=
  is_upper c || is_lower c || Ascii.eqb c " ".

(** Neither begins nor ends with white space. *)
Definition trimmed (s : string) : Prop :=
  (forall c, first_char s = Some c -> is_space c = false) /\
  (forall c, last_char s = Some c -> is_space c = false).

(** The three ways of asking that the name question pattern accepts, in
    lower case. *)
Definition name_questions : list string :=
  ["what's my name"; "what is my name"; "what my name"].

(** A match was found. *)
Definition ok (o : option result) : bool :=
  match o with Some _ => true | None => false end.

Definition not_upper (c : ascii) : bool := negb (is_upper c).

(** Every 8-bit character. *)
Definition all_ascii : list ascii := map ascii_of_nat (seq 0 256).

(** Not a continuation byte of one of the two special characters: an ASCII
    character or the first byte of the Kelvin sign. *)
Definition clean (c : ascii) : bool :=
  (N_of_ascii c <? 128)%N || Ascii.eqb c (ascii_of_N 226).

Definition starts_clean (x : string) : bool :=
  match x with
  | EmptyString => true
  | String c _ => clean c
  end.

(* ================================================================== *)
(** * Facts about strings *)
(* ================================================================== *)

Section StringFacts.

Lemma prefix_nil (s : string) : prefix "" s = true.
Proof. destruct s; reflexivity. Qed.

Lemma prefix_iff (w s : string) :
  prefix w s = true <-> exists b, s = w ++ b.
Proof.
  revert s; induction w as [|c w IH]; intros s.
  - rewrite prefix_nil; split; [exists s; reflexivity | trivial].
  - destruct s as [|d s]; simpl.
    + split; [discriminate | intros [b Hb]; discriminate].
    + destruct (ascii_dec c d) as [->|Hne].
      * rewrite IH; split; intros [b Hb]; exists b; [now subst | now inversion Hb].
      * split; [discriminate | intros [b Hb]; exfalso; apply Hne; now inversion Hb].
Qed.

Lemma includes_cons (w : string) (c : ascii) (s : string) :
  includes w (String c s) = prefix w (String c s) || includes w s.
Proof. reflexivity. Qed.

Lemma includes_iff (w s : string) :
  includes w s = true <-> exists a b, s = a ++ w ++ b.
Proof.
  induction s as [|c s IH]; [change (includes w "") with (prefix w "" || false)
                            | rewrite includes_cons].
  - rewrite orb_false_r, prefix_iff; split.
    + intros [b Hb]; exists "", b; exact Hb.
    + intros [a [b Hb]]; destruct a; [exists b; exact Hb | discriminate].
  - rewrite orb_true_iff, prefix_iff, IH; split.
    + intros [[b Hb]|[a [b Hb]]].
      * exists "", b; exact Hb.
      * exists (String c a), b; simpl; now rewrite Hb.
    + intros [a [b Hb]]; destruct a as [|d a]; simpl in Hb.
      * left; exists b; exact Hb.
      * right; exists a, b; now inversion Hb.
Qed.

Lemma ascii_lower_app (a b : string) :
  ascii_lower (a ++ b) = ascii_lower a ++ ascii_lower b.
Proof. induction a as [|c a IH]; simpl; [reflexivity | now rewrite IH]. Qed.

Lemma ascii_lower_split (s p q : string) :
  ascii_lower s = p ++ q ->
  exists sp sq, s = sp ++ sq /\ ascii_lower sp = p /\ ascii_lower sq = q.
Proof.
  revert s; induction p as [|c p IH]; intros s H.
  - exists "", s; auto.
  - destruct s as [|d s]; simpl in H; [discriminate|].
    inversion H as [[Hc Hs]].
    destruct (IH _ Hs) as (sp & sq & -> & Hp & Hq).
    exists (String d sp), sq; simpl; rewrite Hp; auto.
Qed.

End StringFacts.

(* ================================================================== *)
(** * Facts about the matcher *)
(* ================================================================== *)

Section RegexFacts.

(** A literal word matches exactly where it is a prefix. *)
Lemma rx_lit_exact (w s : string) (caps : captures) (k : cont) :
  rx false (lit w) s caps k =
  if prefix w s then k (drop (String.length w) s) caps else None.
Proof.
  revert s; induction w as [|c w IH]; intros s.
  - now rewrite prefix_nil.
  - destruct s as [|d s]; [reflexivity|].
    cbn [lit rx prefix String.length drop]; unfold chr_eq, canon.
    destruct (ascii_dec c d) as [->|Hne].
    + now rewrite Ascii.eqb_refl, IH.
    + apply Ascii.eqb_neq in Hne; now rewrite Hne.
Qed.

Lemma rx_words_here (ws : list string) (s : string) (caps : captures) (k : cont) :
  ws <> [] -> total k ->
  (rx false (alts (map lit ws)) s caps k <> None <->
   existsb (fun w => prefix w s) ws = true).
Proof.
  intros Hne Hk; induction ws as [|w ws IH]; [contradiction|].
  destruct ws as [|w' ws].
  - cbn [map alts existsb]; rewrite rx_lit_exact, orb_false_r.
    destruct (prefix w s); split; auto; congruence.
  - change (alts (map lit (w :: w' :: ws)))
      with (Alt (lit w) (alts (map lit (w' :: ws)))).
    cbn [rx]; rewrite rx_lit_exact.
    change (existsb (fun w0 => prefix w0 s) (w :: w' :: ws))
      with (prefix w s || existsb (fun w0 => prefix w0 s) (w' :: ws)).
    destruct (prefix w s); cbn [orb].
    + destruct (k (drop (String.length w) s) caps) eqn:E;
        [split; congruence | now apply Hk in E].
    + apply IH; discriminate.
Qed.

Lemma existsb_orb {A} (f g : A -> bool) (l : list A) :
  existsb (fun x => f x || g x) l = existsb f l || existsb g l.
Proof.
  induction l as [|x l IH]; [reflexivity|]; cbn [existsb]; rewrite IH.
  destruct (f x), (g x), (existsb f l); reflexivity.
Qed.

Lemma existsb_same {A} (f g : A -> bool) (l : list A) :
  (forall x, f x = g x) -> existsb f l = existsb g l.
Proof.
  intros H; induction l as [|x l IH]; [reflexivity|]; cbn [existsb].
  now rewrite H, IH.
Qed.

(** [/(w1|...|wn)/.test(s)] holds exactly when [s] includes one of the
    words. *)
Lemma test_words (ws : list string) (s : string) :
  ws <> [] ->
  test false (Group 1 (alts (map lit ws))) s =
  existsb (fun w => includes w s) ws.
Proof.
  intros Hne; unfold test.
  assert (Hhere : forall s,
    match_here false (Group 1 (alts (map lit ws))) s <> None <->
    existsb (fun w => prefix w s) ws = true).
  { intros s0; unfold match_here; cbn [rx].
    apply rx_words_here; [assumption | intros ? ?; discriminate]. }
  induction s as [|c s IH].
  - cbn [exec]; specialize (Hhere "").
    replace (existsb (fun w => includes w "") ws)
      with (existsb (fun w => prefix w "") ws)
      by (apply existsb_same; intros w; cbn [includes]; now rewrite orb_false_r).
    destruct (match_here false (Group 1 (alts (map lit ws))) "");
      destruct (existsb (fun w => prefix w "") ws); try reflexivity.
    + destruct Hhere as [H _]; discriminate H; discriminate.
    + destruct Hhere as [_ H]; now exfalso; apply H.
  - cbn [exec]; specialize (Hhere (String c s)).
    rewrite (existsb_same _ _ ws (fun w => includes_cons w c s)).
    rewrite existsb_orb.
    destruct (match_here false (Group 1 (alts (map lit ws))) (String c s));
      destruct (existsb (fun w => prefix w (String c s)) ws); cbn [orb];
      try reflexivity; try exact IH.
    + destruct Hhere as [H _]; discriminate H; discriminate.
    + destruct Hhere as [_ H]; now exfalso; apply H.
Qed.

End RegexFacts.

(* ================================================================== *)
(** * Lower case *)
(* ================================================================== *)

Section LowerFacts.

Lemma append_assoc (a b c : string) : (a ++ b) ++ c = a ++ b ++ c.
Proof. induction a as [|d a IH]; cbn [append]; [reflexivity | now rewrite IH]. Qed.

Lemma append_nil_r (a : string) : a ++ "" = a.
Proof. induction a as [|d a IH]; cbn [append]; [reflexivity | now rewrite IH]. Qed.

Lemma length_append (a b : string) :
  String.length (a ++ b) = String.length a + String.length b.
Proof. induction a as [|c a IH]; cbn; [reflexivity | now rewrite IH]. Qed.

(** Induction on the length of a string. *)
Lemma string_len_ind (P : string -> Prop) :
  (forall s, (forall t, String.length t < String.length s -> P t) -> P s) ->
  forall s, P s.
Proof.
  intros H s.
  assert (G : forall n t, String.length t < n -> P t).
  { induction n as [|n IH]; intros t Ht; [lia|].
    apply H; intros t' Ht'; apply IH; lia. }
  apply (G (S (String.length s))); lia.
Qed.

Lemma all_ascii_complete (c : ascii) : In c all_ascii.
Proof.
  unfold all_ascii; rewrite <- (ascii_nat_embedding c).
  apply in_map, in_seq; pose proof (nat_ascii_bounded c); lia.
Qed.

(** A boolean fact about two characters, checked on all of them. *)
Lemma by_cases2 (p : ascii -> ascii -> bool) :
  forallb (fun c => forallb (p c) all_ascii) all_ascii = true ->
  forall c d, p c d = true.
Proof.
  intros H c d; rewrite forallb_forall in H; specialize (H c (all_ascii_complete c)).
  rewrite forallb_forall in H; exact (H d (all_ascii_complete d)).
Qed.

Lemma by_cases1 (p : ascii -> bool) :
  forallb p all_ascii = true -> forall c, p c = true.
Proof. intros H c; rewrite forallb_forall in H; exact (H c (all_ascii_complete c)). Qed.

Lemma plain_facts (c : ascii) :
  plain c = true ->
  lower_char c = c /\ lower_char (upper_char c) = c /\
  (N_of_ascii c <? 128)%N = true /\ (N_of_ascii (upper_char c) <? 128)%N = true.
Proof.
  pose proof (by_cases1
    (fun c => implb (plain c)
       (Ascii.eqb (lower_char c) c && Ascii.eqb (lower_char (upper_char c)) c
        && (N_of_ascii c <? 128)%N && (N_of_ascii (upper_char c) <? 128)%N))
    eq_refl c) as H; cbv beta in H.
  intros Hc; rewrite Hc in H; cbn [implb] in H.
  apply andb_true_iff in H as [H H4]; apply andb_true_iff in H as [H H3].
  apply andb_true_iff in H as [H1 H2].
  apply Ascii.eqb_eq in H1; apply Ascii.eqb_eq in H2; auto.
Qed.

Lemma lower_is_plain (c d : ascii) :
  plain c = true -> lower_char d = c -> d = c \/ d = upper_char c.
Proof.
  pose proof (by_cases2
    (fun c d => implb (plain c && Ascii.eqb (lower_char d) c)
                      (Ascii.eqb d c || Ascii.eqb d (upper_char c)))
    eq_refl c d) as H; cbv beta in H.
  intros Hc Hd; rewrite Hc, Hd, Ascii.eqb_refl in H; cbn [andb implb] in H.
  apply orb_true_iff in H as [H|H]; apply Ascii.eqb_eq in H; auto.
Qed.

Lemma low_not_lead (c : ascii) :
  (N_of_ascii c <? 128)%N = true ->
  Ascii.eqb c (ascii_of_N 196) = false /\ Ascii.eqb c (ascii_of_N 226) = false /\
  Ascii.eqb c (ascii_of_N 204) = false /\ Ascii.eqb c (ascii_of_N 135) = false.
Proof.
  pose proof (by_cases1
    (fun c => implb (N_of_ascii c <? 128)%N
       (negb (Ascii.eqb c (ascii_of_N 196)) && negb (Ascii.eqb c (ascii_of_N 226))
        && negb (Ascii.eqb c (ascii_of_N 204)) && negb (Ascii.eqb c (ascii_of_N 135))))
    eq_refl c) as H; cbv beta in H.
  intros Hc; rewrite Hc in H; cbn [implb] in H.
  apply andb_true_iff in H as [H H4]; apply andb_true_iff in H as [H H3].
  apply andb_true_iff in H as [H1 H2].
  repeat split; now apply negb_true_iff.
Qed.

Lemma clean_not_tail (c : ascii) :
  clean c = true ->
  Ascii.eqb c (ascii_of_N 176) = false /\ Ascii.eqb c (ascii_of_N 132) = false /\
  Ascii.eqb c (ascii_of_N 170) = false.
Proof.
  pose proof (by_cases1
    (fun c => implb (clean c)
       (negb (Ascii.eqb c (ascii_of_N 176)) && negb (Ascii.eqb c (ascii_of_N 132))
        && negb (Ascii.eqb c (ascii_of_N 170))))
    eq_refl c) as H; cbv beta in H.
  intros Hc; rewrite Hc in H; cbn [implb] in H.
  apply andb_true_iff in H as [H H3]; apply andb_true_iff in H as [H1 H2].
  repeat split; now apply negb_true_iff.
Qed.

(** What [special] recognises. *)
Lemma special_cases (s out rest : string) :
  special s = Some (out, rest) ->
  (out = "k" /\ s = kelvin ++ rest) \/ (out = i_dot /\ s = dotted_I ++ rest).
Proof.
  destruct s as [|c1 [|c2 r2]]; try discriminate; cbn [special].
  destruct (Ascii.eqb c1 (ascii_of_N 196) && Ascii.eqb c2 (ascii_of_N 176)) eqn:E1.
  - intros H; inversion H; subst; right; split; [reflexivity|].
    apply andb_true_iff in E1 as [E1 E2].
    apply Ascii.eqb_eq in E1; apply Ascii.eqb_eq in E2; now subst.
  - destruct r2 as [|c3 r3]; [discriminate|].
    destruct (Ascii.eqb c1 (ascii_of_N 226) && Ascii.eqb c2 (ascii_of_N 132)
              && Ascii.eqb c3 (ascii_of_N 170)) eqn:E2; [|discriminate].
    intros H; inversion H; subst; left; split; [reflexivity|].
    apply andb_true_iff in E2 as [E2 E3]; apply andb_true_iff in E2 as [E2 E2'].
    apply Ascii.eqb_eq in E2; apply Ascii.eqb_eq in E2'; apply Ascii.eqb_eq in E3.
    now subst.
Qed.

(** One step of [toLowerCase]. *)
Lemma toLowerCase_unfold (c : ascii) (r : string) :
  toLowerCase (String c r) =
  match special (String c r) with
  | Some (out, rest) => out ++ toLowerCase rest
  | None => String (lower_char c) (toLowerCase r)
  end.
Proof.
  destruct r as [|c2 r2]; [reflexivity|].
  change (toLowerCase (String c (String c2 r2)))
    with (if Ascii.eqb c (ascii_of_N 196) && Ascii.eqb c2 (ascii_of_N 176)
          then i_dot ++ toLowerCase r2
          else match r2 with
               | String c3 r3 =>
                   if Ascii.eqb c (ascii_of_N 226) && Ascii.eqb c2 (ascii_of_N 132)
                      && Ascii.eqb c3 (ascii_of_N 170)
                   then String "k" (toLowerCase r3)
                   else String (lower_char c) (toLowerCase (String c2 r2))
               | EmptyString => String (lower_char c) (toLowerCase (String c2 r2))
               end).
  cbn [special].
  destruct (Ascii.eqb c (ascii_of_N 196) && Ascii.eqb c2 (ascii_of_N 176));
    [reflexivity|].
  destruct r2 as [|c3 r3]; [reflexivity|].
  now destruct (Ascii.eqb c (ascii_of_N 226) && Ascii.eqb c2 (ascii_of_N 132)
                && Ascii.eqb c3 (ascii_of_N 170)).
Qed.

Lemma lower_kelvin (r : string) : toLowerCase (kelvin ++ r) = String "k" (toLowerCase r).
Proof. reflexivity. Qed.

Lemma lower_dotted (r : string) : toLowerCase (dotted_I ++ r) = i_dot ++ toLowerCase r.
Proof. reflexivity. Qed.

Lemma special_low (c : ascii) (r : string) :
  (N_of_ascii c <? 128)%N = true -> special (String c r) = None.
Proof.
  intros Hc; apply low_not_lead in Hc as (H1 & H2 & _).
  destruct r as [|c2 [|c3 r3]]; cbn [special]; rewrite ?H1, ?H2; reflexivity.
Qed.

Lemma lower_low (c : ascii) (r : string) :
  (N_of_ascii c <? 128)%N = true ->
  toLowerCase (String c r) = String (lower_char c) (toLowerCase r).
Proof. intros Hc; now rewrite toLowerCase_unfold, special_low. Qed.

(** A spelling of a plain word lower-cases to the word. *)
Lemma spells_lower (w x b : string) :
  all_chars plain w = true -> spells w x ->
  toLowerCase (x ++ b) = w ++ toLowerCase b.
Proof.
  revert x; induction w as [|c w IH]; intros x Hw Hx; cbn [spells] in Hx.
  - now subst.
  - cbn [all_chars] in Hw; apply andb_true_iff in Hw as [Hc Hw].
    destruct (@plain_facts c Hc) as (L1 & L2 & L3 & L4).
    destruct Hx as (x' & Hx' & [->|[->|[-> ->]]]).
    + cbn [append]; now rewrite lower_low, L1, IH.
    + cbn [append]; now rewrite lower_low, L2, IH.
    + rewrite append_assoc, lower_kelvin; cbn [append]; now rewrite IH.
Qed.

Lemma spells_starts_clean (w x : string) :
  all_chars plain w = true -> spells w x -> starts_clean x = true.
Proof.
  destruct w as [|c w]; cbn [spells all_chars]; intros Hw Hx; [now subst|].
  apply andb_true_iff in Hw as [Hc _].
  destruct (@plain_facts c Hc) as (_ & _ & L3 & L4).
  destruct Hx as (x' & _ & [->|[->|[_ ->]]]); cbn [starts_clean]; unfold clean.
  - now rewrite L3.
  - now rewrite L4.
  - reflexivity.
Qed.

Lemma special_app_clean (c : ascii) (r x : string) :
  starts_clean x = true -> special (String c r) = None ->
  special (String c (r ++ x)) = None.
Proof.
  intros Hx H.
  assert (T : forall c' x', x = String c' x' ->
              Ascii.eqb c' (ascii_of_N 176) = false /\
              Ascii.eqb c' (ascii_of_N 132) = false /\
              Ascii.eqb c' (ascii_of_N 170) = false).
  { intros c' x' ->; now apply clean_not_tail. }
  destruct r as [|c2 r2]; cbn [append].
  - destruct x as [|c2 x2]; [reflexivity|].
    destruct (T c2 x2 eq_refl) as (T1 & T2 & T3); cbn [special].
    rewrite T1, T2, !andb_false_r; now destruct x2.
  - cbn [special] in *.
    destruct (Ascii.eqb c (ascii_of_N 196) && Ascii.eqb c2 (ascii_of_N 176));
      [discriminate|].
    destruct r2 as [|c3 r3]; cbn [append].
    + destruct x as [|c3 x3]; [reflexivity|].
      destruct (T c3 x3 eq_refl) as (T1 & T2 & T3).
      now rewrite T3, !andb_false_r.
    + destruct (Ascii.eqb c (ascii_of_N 226) && Ascii.eqb c2 (ascii_of_N 132)
                && Ascii.eqb c3 (ascii_of_N 170)); [discriminate | reflexivity].
Qed.

(** Before a clean start the lower case of a text is the lower case of its
    parts. *)
Lemma lower_app_clean (a x : string) :
  starts_clean x = true ->
  toLowerCase (a ++ x) = toLowerCase a ++ toLowerCase x.
Proof.
  intros Hx; induction a as [a IH] using string_len_ind.
  destruct a as [|c r]; [reflexivity|].
  rewrite (toLowerCase_unfold c r).
  destruct (special (String c r)) as [[out rest]|] eqn:E.
  - apply special_cases in E as [[-> E]|[-> E]]; rewrite E.
    + rewrite append_assoc, lower_kelvin, IH; [reflexivity|].
      rewrite E; cbn; lia.
    + rewrite append_assoc, lower_dotted, IH, append_assoc; [reflexivity|].
      rewrite E; cbn; lia.
  - cbn [append]; rewrite toLowerCase_unfold, (@special_app_clean c r x Hx E).
    rewrite IH; [reflexivity | cbn; lia].
Qed.

Lemma starts_clean_app (x b : string) :
  x <> "" -> starts_clean (x ++ b) = starts_clean x.
Proof. destruct x; [congruence | reflexivity]. Qed.

Lemma keyword_parts (w : string) :
  keyword w = true ->
  all_chars plain w = true /\ w <> "" /\ last_char w <> Some "i"%char.
Proof.
  unfold keyword; intros H; apply andb_true_iff in H as [H1 H2]; split; [assumption|].
  destruct (last_char w) as [c|] eqn:E; [|discriminate]; split.
  - intros ->; discriminate.
  - intros H; inversion H; subst; discriminate.
Qed.

Lemma spells_not_empty (w x : string) : w <> "" -> spells w x -> x <> "".
Proof.
  destruct w as [|c w]; [congruence|]; intros _ (x' & _ & [->|[->|[_ ->]]]); discriminate.
Qed.

(** A word that occurs up to letter case is found in the lower case. *)
Lemma occurs_includes (w m : string) :
  keyword w = true -> occurs_ci w m -> includes w (toLowerCase m) = true.
Proof.
  intros Hk (a & x & b & -> & Hx).
  apply keyword_parts in Hk as (Hp & Hne & _).
  rewrite lower_app_clean.
  - rewrite (@spells_lower w x b Hp Hx); apply includes_iff.
    now exists (toLowerCase a), (toLowerCase b).
  - rewrite starts_clean_app by (now apply (@spells_not_empty w x Hne Hx)).
    now apply (@spells_starts_clean w x).
Qed.

(** A plain word at the start of the lower case is spelled at the start. *)
Lemma prefix_lower_spells (w m : string) :
  all_chars plain w = true -> last_char w <> Some "i"%char ->
  prefix w (toLowerCase m) = true ->
  exists x b, m = x ++ b /\ spells w x.
Proof.
  revert m; induction w as [|c w IH]; intros m Hp Hl H.
  - now exists "", m.
  - cbn [all_chars] in Hp; apply andb_true_iff in Hp as [Hc Hp].
    assert (Hl' : last_char w <> Some "i"%char).
    { destruct w as [|c' w']; [discriminate | exact Hl]. }
    destruct m as [|c1 r]; [discriminate|].
    rewrite toLowerCase_unfold in H.
    destruct (special (String c1 r)) as [[out rest]|] eqn:E.
    + apply special_cases in E as [[-> E]|[-> E]]; rewrite E.
      * cbn [append prefix] in H.
        destruct (ascii_dec c "k") as [->|]; [|discriminate].
        destruct (IH rest Hp Hl' H) as (x' & b & -> & Hx').
        exists (kelvin ++ x'), b; split; [now rewrite append_assoc|].
        cbn [spells]; exists x'; auto.
      * cbn [i_dot append prefix] in H.
        destruct (ascii_dec c "i") as [->|]; [|discriminate].
        destruct w as [|c' w']; [now contradiction Hl|].
        cbn [prefix] in H; cbn [all_chars] in Hp.
        apply andb_true_iff in Hp as [Hc' _].
        destruct (@plain_facts c' Hc') as (_ & _ & L3 & _).
        apply low_not_lead in L3 as (_ & _ & L3 & _).
        destruct (ascii_dec c' (ascii_of_N 204)) as [->|]; [|discriminate].
        discriminate L3.
    + cbn [prefix] in H.
      destruct (ascii_dec c (lower_char c1)) as [Hc1|]; [|discriminate].
      destruct (IH r Hp Hl' H) as (x' & b & -> & Hx').
      symmetry in Hc1; apply (@lower_is_plain c c1 Hc) in Hc1.
      exists (String c1 x'), b; split; [reflexivity|].
      cbn [spells]; exists x'; split; [assumption|].
      destruct Hc1 as [->| ->]; auto.
Qed.

Lemma prefix_high (w : string) (c : ascii) (s : string) :
  all_chars plain w = true -> w <> "" ->
  (N_of_ascii c <? 128)%N = false -> prefix w (String c s) = false.
Proof.
  destruct w as [|c' w]; [congruence|]; cbn [all_chars prefix]; intros Hp _ Hc.
  apply andb_true_iff in Hp as [Hc' _].
  destruct (@plain_facts c' Hc') as (_ & _ & L3 & _).
  destruct (ascii_dec c' c) as [->|]; [congruence | reflexivity].
Qed.

(** A word found in the lower case occurs up to letter case. *)
Lemma includes_occurs (w m : string) :
  keyword w = true -> includes w (toLowerCase m) = true -> occurs_ci w m.
Proof.
  intros Hk; destruct (@keyword_parts w Hk) as (Hp & Hne & Hl).
  induction m as [m IH] using string_len_ind; intros H.
  assert (Here : prefix w (toLowerCase m) = true -> occurs_ci w m).
  { intros Hpre; destruct (@prefix_lower_spells w m Hp Hl Hpre) as (x & b & -> & Hx).
    now exists "", x, b. }
  destruct m as [|c r].
  - apply Here; cbn [toLowerCase includes] in *; now rewrite orb_false_r in H.
  - assert (Later : forall a rest, String c r = a ++ rest ->
                      String.length rest < String.length (String c r) ->
                      includes w (toLowerCase rest) = true -> occurs_ci w (String c r)).
    { intros a rest E Hlen Hin.
      destruct (IH rest Hlen Hin) as (a' & x & b & -> & Hx).
      exists (a ++ a'), x, b; split; [now rewrite E, append_assoc | assumption]. }
    pose proof H as H0; rewrite toLowerCase_unfold in H.
    destruct (special (String c r)) as [[out rest]|] eqn:E.
    + apply special_cases in E as [[-> E]|[-> E]].
      * cbn [append] in H; rewrite includes_cons in H.
        apply orb_true_iff in H as [H|H].
        -- apply Here; now rewrite E, lower_kelvin.
        -- apply (Later kelvin rest E); [rewrite E; cbn; lia | assumption].
      * cbn [i_dot append] in H; rewrite !includes_cons in H.
        rewrite (@prefix_high w (ascii_of_N 204) _ Hp Hne) in H by reflexivity.
        rewrite (@prefix_high w (ascii_of_N 135) _ Hp Hne) in H by reflexivity.
        cbn [orb] in H; apply orb_true_iff in H as [H|H].
        -- apply Here; now rewrite E, lower_dotted.
        -- apply (Later dotted_I rest E); [rewrite E; cbn; lia | assumption].
    + rewrite includes_cons in H; apply orb_true_iff in H as [H|H].
      * apply Here; now rewrite toLowerCase_unfold, E.
      * apply (Later (String c "") r eq_refl); [cbn; lia | assumption].
Qed.

Lemma occurs_ci_iff (w m : string) :
  keyword w = true ->
  (occurs_ci w m <-> includes w (toLowerCase m) = true).
Proof. intros Hk; split; [now apply occurs_includes | now apply includes_occurs]. Qed.

Lemma mentions_iff (ws : list string) (m : string) :
  forallb keyword ws = true ->
  (mentions ws m <-> existsb (fun w => includes w (toLowerCase m)) ws = true).
Proof.
  intros Hk; rewrite forallb_forall in Hk.
  rewrite existsb_exists; split; intros (w & Hin & H); exists w;
    (split; [assumption | now apply (@occurs_ci_iff w m (Hk w Hin))]).
Qed.

Lemma occurs_grows (w a m b : string) : occurs_ci w m -> occurs_ci w (a ++ m ++ b).
Proof.
  intros (a' & x & b' & -> & Hx); exists (a ++ a'), x, (b' ++ b); split; [|assumption].
  now rewrite !append_assoc.
Qed.

Lemma mentions_grows (ws : list string) (a m b : string) :
  mentions ws m -> mentions ws (a ++ m ++ b).
Proof. intros (w & Hin & H); exists w; split; [assumption | now apply occurs_grows]. Qed.

(** For a plain word without "k" a spelling is a text whose ASCII letters
    lower-case to it. *)
Lemma spells_ascii (w x : string) :
  all_chars plain w = true -> has_char "k" w = false ->
  (spells w x <-> ascii_lower x = w).
Proof.
  revert x; induction w as [|c w IH]; intros x Hp Hk; cbn [spells].
  - split; [now intros -> | now destruct x].
  - cbn [all_chars has_char] in *; apply andb_true_iff in Hp as [Hc Hp].
    apply orb_false_iff in Hk as [Hck Hk].
    destruct (@plain_facts c Hc) as (L1 & L2 & _); split.
    + intros (x' & Hx' & [->|[->|[-> _]]]).
      * cbn [ascii_lower]; rewrite L1; f_equal; exact (proj1 (IH x' Hp Hk) Hx').
      * cbn [ascii_lower]; rewrite L2; f_equal; exact (proj1 (IH x' Hp Hk) Hx').
      * now rewrite Ascii.eqb_refl in Hck.
    + destruct x as [|c1 x']; [discriminate|]; cbn [ascii_lower]; intros H.
      injection H as H1 H2; exists x'; split; [exact (proj2 (IH x' Hp Hk) H2)|].
      pose proof (@lower_is_plain c c1 Hc H1) as [->| ->]; auto.
Qed.

Lemma includes_ascii_lower (w m : string) :
  includes w (ascii_lower m) = true <->
  exists a x b, m = a ++ x ++ b /\ ascii_lower x = w.
Proof.
  rewrite includes_iff; split.
  - intros (a & b & H).
    apply ascii_lower_split in H as (sa & sr & -> & <- & H).
    apply ascii_lower_split in H as (sx & sb & -> & <- & <-).
    now exists sa, sx, sb.
  - intros (a & x & b & -> & <-).
    exists (ascii_lower a), (ascii_lower b); now rewrite !ascii_lower_app.
Qed.

(** For such a word both lower cases find the same. *)
Lemma includes_lower_same (w m : string) :
  keyword w = true -> has_char "k" w = false ->
  includes w (toLowerCase m) = includes w (ascii_lower m).
Proof.
  intros Hk Hnk; apply Bool.eq_iff_eq_true.
  rewrite <- (@occurs_ci_iff w m Hk), includes_ascii_lower.
  destruct (@keyword_parts w Hk) as (Hp & _).
  split; intros (a & x & b & E & H); exists a, x, b; split; try assumption;
    now apply (@spells_ascii w x Hp Hnk).
Qed.

End LowerFacts.

(* ================================================================== *)
(** * The tone classifier *)
(* ================================================================== *)

Lemma detectTone_eq (message : string) :
  detectTone message =
  if existsb (fun w => includes w (toLowerCase message)) empathetic_words
  then empathetic
  else if existsb (fun w => includes w (toLowerCase message)) playful_words
       then playful
       else neutral.
Proof.
  unfold detectTone, re_empathetic, re_playful.
  rewrite !test_words by discriminate; reflexivity.
Qed.

(** C2.  The tone of a message depends on its text alone and ignores letter
    case: a message that mentions one of "sad", "depressed", "unhappy",
    "down", "not good", "worried" is empathetic; one that mentions none of
    these but one of "joke", "roast", "funny", "lol", "haha" is playful; every
    other message is neutral.  A message mentions a word when a stretch of it
    spells the word with each letter in either case (for "k", also as the
    Kelvin sign, whose lower case is "k"). *)
Theorem detectTone_spec (message : string) :
  (mentions empathetic_words message -> detectTone message = empathetic) /\
  (~ mentions empathetic_words message -> mentions playful_words message ->
   detectTone message = playful) /\
  (~ mentions empathetic_words message -> ~ mentions playful_words message ->
   detectTone message = neutral).
Proof.
  rewrite detectTone_eq, !mentions_iff by reflexivity.
  destruct (existsb _ empathetic_words); destruct (existsb _ playful_words);
    repeat split; intros; congruence.
Qed.

Lemma detectTone_spec_witness :
  detectTone "I'm feeling really DOWN today" = empathetic /\
  detectTone ("tell me a JO" ++ kelvin ++ "E") = playful /\
  detectTone "what's the weather" = neutral.
Proof.
  split; [|split].
  - apply (proj1 (detectTone_spec "I'm feeling really DOWN today")).
    exists "down"; split; [simpl; auto|].
    exists "I'm feeling really ", "DOWN", " today"; split; [reflexivity|].
    repeat (eexists; split; [|right; left; reflexivity]); reflexivity.
  - apply (proj1 (proj2 (detectTone_spec ("tell me a JO" ++ kelvin ++ "E")))).
    + intros H; apply mentions_iff in H; [|reflexivity].
      vm_compute in H; discriminate.
    + exists "joke"; split; [simpl; auto|].
      exists "tell me a ", ("JO" ++ kelvin ++ "E"), ""; split; [reflexivity|].
      exists ("O" ++ kelvin ++ "E"); split; [|right; left; reflexivity].
      exists (kelvin ++ "E"); split; [|right; left; reflexivity].
      exists "E"; split; [|right; right; split; reflexivity].
      exists ""; split; [reflexivity | right; left; reflexivity].
  - apply (proj2 (proj2 (detectTone_spec "what's the weather"))).
    + intros H; apply mentions_iff in H; [|reflexivity].
      vm_compute in H; discriminate.
    + intros H; apply mentions_iff in H; [|reflexivity].
      vm_compute in H; discriminate.
Defined.

(** X1.  Text added around a message never cools its tone.  An empathetic
    message stays empathetic inside any longer message; a playful one becomes
    playful or empathetic, never neutral; and every part of a neutral message
    is neutral. *)
Theorem detectTone_monotone (a m b : string) :
  (detectTone m = empathetic -> detectTone (a ++ m ++ b) = empathetic) /\
  (detectTone m = playful -> detectTone (a ++ m ++ b) <> neutral) /\
  (detectTone (a ++ m ++ b) = neutral -> detectTone m = neutral).
Proof.
  assert (G : forall ws, forallb keyword ws = true ->
            existsb (fun w => includes w (toLowerCase m)) ws = true ->
            existsb (fun w => includes w (toLowerCase (a ++ m ++ b))) ws = true).
  { intros ws Hk H; apply (@mentions_iff ws (a ++ m ++ b) Hk), mentions_grows.
    now apply (@mentions_iff ws m Hk). }
  pose proof (G empathetic_words eq_refl) as He.
  pose proof (G playful_words eq_refl) as Hp.
  rewrite !detectTone_eq.
  destruct (existsb (fun w => includes w (toLowerCase m)) empathetic_words);
    destruct (existsb (fun w => includes w (toLowerCase m)) playful_words);
    try (rewrite He by reflexivity); try (rewrite Hp by reflexivity);
    repeat split; intros; try congruence;
    destruct (existsb _ empathetic_words); congruence.
Qed.

Lemma detectTone_monotone_witness :
  detectTone ("well, " ++ "I am sad" ++ " lol") = empathetic /\
  detectTone ("so " ++ "tell me a joke" ++ ", please") <> neutral /\
  detectTone "dear" = neutral.
Proof.
  split; [|split].
  - apply (proj1 (detectTone_monotone "well, " "I am sad" " lol")); reflexivity.
  - apply (proj1 (proj2 (detectTone_monotone "so " "tell me a joke" ", please")));
      reflexivity.
  - apply (proj2 (proj2 (detectTone_monotone "hello " "dear" " world")));
      reflexivity.
Defined.
(* ================================================================== *)
(** * Facts about the store *)
(* ================================================================== *)

Section StoreFacts.

Lemma same_key_iff (u k : string) (r : fact) :
  same_key u k r = true <-> key_of r = (u, k).
Proof.
  unfold same_key, key_of; rewrite andb_true_iff, !String.eqb_eq.
  split; [intros [-> ->]; reflexivity | intros H; now inversion H].
Qed.

Lemma same_key_refl (u k v : string) : same_key u k (Fact u k v) = true.
Proof. now apply same_key_iff. Qed.

Lemma filter_none {A} (f : A -> bool) (l : list A) :
  (forall x, In x l -> f x = false) -> filter f l = [].
Proof.
  induction l as [|x l IH]; intros H; [reflexivity|]; cbn [filter].
  rewrite (H x (or_introl eq_refl)); apply IH; intros y Hy; apply H; now right.
Qed.

Lemma absent_key (u k : string) (rs : list fact) :
  ~ In (u, k) (map key_of rs) -> filter (same_key u k) rs = [].
Proof.
  intros H; apply filter_none; intros r Hr.
  destruct (same_key u k r) eqn:E; [|reflexivity].
  apply same_key_iff in E; exfalso; apply H; rewrite <- E; now apply in_map.
Qed.

Lemma upsert_keys (u k v : string) (rs : list fact) :
  map key_of (upsert u k v rs) =
  if existsb (same_key u k) rs then map key_of rs
  else (map key_of rs ++ [(u, k)])%list.
Proof.
  induction rs as [|r rs IH]; [reflexivity|]; cbn [upsert existsb].
  destruct (same_key u k r); cbn [orb map]; [reflexivity|].
  rewrite IH; now destruct (existsb (same_key u k) rs).
Qed.

Lemma upsert_NoDup (u k v : string) (rs : list fact) :
  NoDup (map key_of rs) -> NoDup (map key_of (upsert u k v rs)).
Proof.
  intros H; rewrite upsert_keys.
  destruct (existsb (same_key u k) rs) eqn:E; [assumption|].
  apply NoDup_app; repeat split; auto.
  - constructor; [intros []| constructor].
  - intros x Hx [<-|[]].
    apply in_map_iff in Hx as (r & Hr & Hin).
    assert (existsb (same_key u k) rs = true)
      by (apply existsb_exists; exists r; split; [assumption | now apply same_key_iff]).
    congruence.
Qed.

(** After an upsert the key has exactly one row, holding the new value. *)
Lemma upsert_single (u k v : string) (rs : list fact) :
  NoDup (map key_of rs) ->
  filter (same_key u k) (upsert u k v rs) = [Fact u k v].
Proof.
  induction rs as [|r rs IH]; intros H.
  - cbn [upsert filter]; now rewrite same_key_refl.
  - cbn [upsert]; inversion H as [|? ? Hnotin Hnd]; subst.
    destruct (same_key u k r) eqn:E.
    + apply same_key_iff in E; unfold key_of in E; inversion E; subst.
      cbn [filter]; rewrite same_key_refl; f_equal.
      now apply absent_key.
    + cbn [filter]; rewrite E; now apply IH.
Qed.

(** Rows of other keys are left as they were. *)
Lemma upsert_others (u k v u' k' : string) (rs : list fact) :
  (u', k') <> (u, k) ->
  filter (same_key u' k') (upsert u k v rs) = filter (same_key u' k') rs.
Proof.
  intros Hne; induction rs as [|r rs IH]; cbn [upsert filter].
  - destruct (same_key u' k' (Fact u k v)) eqn:E; [|reflexivity].
    apply same_key_iff in E; unfold key_of in E; cbn in E; congruence.
  - destruct (same_key u k r) eqn:E; cbn [filter].
    + apply same_key_iff in E.
      replace (same_key u' k' r) with false
        by (symmetry; destruct (same_key u' k' r) eqn:E'; [|reflexivity];
            apply same_key_iff in E'; congruence).
      replace (same_key u' k' (Fact (user_id r) (fact_key r) v)) with false;
        [reflexivity|].
      symmetry; destruct (same_key u' k' _) eqn:E'; [|reflexivity].
      apply same_key_iff in E'; unfold key_of in *; cbn in E'; congruence.
    + now rewrite IH.
Qed.

(** Copying a duplicate-free table into an empty [UNIQUE] one keeps every
    row, in order. *)
Lemma copy_unique (rs acc : list fact) :
  NoDup (map key_of (acc ++ rs)%list) ->
  fold_left insert_or_ignore rs (Table true acc) = Table true (acc ++ rs)%list.
Proof.
  revert acc; induction rs as [|r rs IH]; intros acc H; cbn [fold_left].
  - now rewrite app_nil_r.
  - unfold insert_or_ignore at 2; cbn [uniq rows andb].
    replace (existsb (same_key (user_id r) (fact_key r)) acc) with false.
    + replace (acc ++ r :: rs)%list with ((acc ++ [r]) ++ rs)%list in *
        by (now rewrite <- app_assoc).
      now apply IH.
    + symmetry; apply not_true_iff_false; intros E.
      apply existsb_exists in E as (x & Hx & E); apply same_key_iff in E.
      rewrite map_app in H; cbn [map] in H.
      apply NoDup_remove_2 in H; apply H, in_or_app; left.
      change (key_of x = key_of r) in E; rewrite <- E.
      now apply in_map.
Qed.

(** Whatever the old rows, the copy into a [UNIQUE] table is duplicate-free. *)
Lemma copy_NoDup (rs acc : list fact) :
  NoDup (map key_of acc) ->
  exists rs', fold_left insert_or_ignore rs (Table true acc) = Table true rs' /\
              NoDup (map key_of rs').
Proof.
  revert acc; induction rs as [|r rs IH]; intros acc H; cbn [fold_left].
  - now exists acc.
  - unfold insert_or_ignore at 2; cbn [uniq rows andb].
    destruct (existsb (same_key (user_id r) (fact_key r)) acc) eqn:E.
    + now apply IH.
    + apply IH; rewrite map_app; apply NoDup_app; repeat split; auto.
      * constructor; [intros []|constructor].
      * intros x Hx [<-|[]].
        apply in_map_iff in Hx as (y & Hy & Hin).
        assert (existsb (same_key (user_id r) (fact_key r)) acc = true)
          by (apply existsb_exists; exists y; split;
              [assumption | now apply same_key_iff]).
        congruence.
Qed.

Lemma leb_refl (s : string) : String.leb s s = true.
Proof. now destruct (String.leb_total s s). Qed.

(** The rows of a key come out of the insertion with the new row first. *)
Lemma filter_insert_by_key (k : string) (r : fact) (l : list fact) :
  filter (fun x => String.eqb (fact_key x) k) (insert_by_key r l) =
  if String.eqb (fact_key r) k
  then r :: filter (fun x => String.eqb (fact_key x) k) l
  else filter (fun x => String.eqb (fact_key x) k) l.
Proof.
  induction l as [|x l IH]; cbn [insert_by_key filter]; [reflexivity|].
  destruct (String.leb (fact_key r) (fact_key x)) eqn:E; cbn [filter]; [reflexivity|].
  rewrite IH; destruct (String.eqb (fact_key x) k) eqn:Ex; [|reflexivity].
  destruct (String.eqb (fact_key r) k) eqn:Er; [|reflexivity].
  apply String.eqb_eq in Ex; apply String.eqb_eq in Er.
  rewrite Ex, Er, leb_refl in E; discriminate.
Qed.

(** Sorting by key keeps the rows of each key, in their order. *)
Lemma filter_sort_by_key (k : string) (l : list fact) :
  filter (fun x => String.eqb (fact_key x) k) (sort_by_key l) =
  filter (fun x => String.eqb (fact_key x) k) l.
Proof.
  induction l as [|r l IH]; [reflexivity|].
  cbn [sort_by_key fold_right filter]; fold (sort_by_key l).
  rewrite filter_insert_by_key, IH; reflexivity.
Qed.

(** The rows served for a key are the rows the table has for it, in the
    order it has them. *)
Lemma rows_of_key (u k : string) (t : table) :
  filter (fun x => String.eqb (fact_key x) k) (rows_of u t) =
  filter (same_key u k) (rows t).
Proof.
  assert (F : forall rs,
            filter (fun x => String.eqb (fact_key x) k)
                   (filter (fun r => String.eqb (user_id r) u) rs) =
            filter (same_key u k) rs).
  { induction rs as [|r rs IH]; [reflexivity|]; cbn [filter]; unfold same_key at 1.
    destruct (String.eqb (user_id r) u); cbn [andb filter]; [|assumption].
    destruct (String.eqb (fact_key r) k); now rewrite IH. }
  unfold rows_of; destruct (uniq t); [rewrite filter_sort_by_key|]; apply F.
Qed.

Lemma upsert_other_user (u k v u' : string) (rs : list fact) :
  u' <> u ->
  filter (fun r => String.eqb (user_id r) u') (upsert u k v rs) =
  filter (fun r => String.eqb (user_id r) u') rs.
Proof.
  intros Hne; apply String.eqb_neq in Hne.
  induction rs as [|r rs IH]; cbn [upsert filter user_id].
  - rewrite String.eqb_sym, Hne; reflexivity.
  - destruct (same_key u k r) eqn:E; cbn [filter user_id]; [|now rewrite IH].
    unfold same_key in E; apply andb_true_iff in E as [E _].
    apply String.eqb_eq in E; rewrite E.
    now rewrite String.eqb_sym, Hne.
Qed.

End StoreFacts.

(* ================================================================== *)
(** * Facts about dictionaries *)
(* ================================================================== *)

Section ObjectFacts.

Lemma get_put_same (k v : string) (o : obj) :
  JsObject.get k (JsObject.put k v o) = Some v.
Proof.
  induction o as [|[k' v'] o IH]; cbn [JsObject.put JsObject.get].
  - now rewrite String.eqb_refl.
  - destruct (String.eqb k k') eqn:E; cbn [JsObject.get]; now rewrite E.
Qed.

Lemma get_put_other (k k' v : string) (o : obj) :
  k <> k' -> JsObject.get k (JsObject.put k' v o) = JsObject.get k o.
Proof.
  intros Hne; induction o as [|[k0 v0] o IH]; cbn [JsObject.put JsObject.get].
  - apply String.eqb_neq in Hne; now rewrite Hne.
  - destruct (String.eqb k' k0) eqn:E; cbn [JsObject.get].
    + apply String.eqb_eq in E; subst k0.
      apply String.eqb_neq in Hne; now rewrite Hne.
    + now rewrite IH.
Qed.

Lemma get_set_other (k k' v : string) (o : obj) :
  k <> k' -> JsObject.get k (JsObject.set k' v o) = JsObject.get k o.
Proof.
  intros Hne; unfold JsObject.set.
  destruct (String.eqb k' "__proto__"); [reflexivity | now apply get_put_other].
Qed.

Lemma get_set_same (k v : string) (o : obj) :
  k <> "__proto__" -> JsObject.get k (JsObject.set k v o) = Some v.
Proof.
  intros Hne; unfold JsObject.set.
  apply String.eqb_neq in Hne; rewrite Hne; apply get_put_same.
Qed.

(** An assignment to [__proto__] leaves the dictionary as it was. *)
Lemma set_proto (v : string) (o : obj) : JsObject.set "__proto__" v o = o.
Proof. reflexivity. Qed.

Lemma fold_assign_absent (k : string) (rws : list (string * string)) (acc : obj) :
  filter (fun p => String.eqb (fst p) k) rws = [] ->
  JsObject.get k (fold_left assign rws acc) = JsObject.get k acc.
Proof.
  revert acc; induction rws as [|[k' v'] rws IH]; intros acc H; [reflexivity|].
  cbn [fold_left filter fst] in *.
  destruct (String.eqb k' k) eqn:E; [discriminate|].
  rewrite IH by assumption; unfold assign; cbn [fst snd].
  apply get_set_other; apply String.eqb_neq in E; congruence.
Qed.

Lemma fold_assign_single (k v : string) (rws : list (string * string)) (acc : obj) :
  k <> "__proto__" ->
  filter (fun p => String.eqb (fst p) k) rws = [(k, v)] ->
  JsObject.get k (fold_left assign rws acc) = Some v.
Proof.
  intros Hk; revert acc; induction rws as [|[k' v'] rws IH]; intros acc H;
    [discriminate|].
  cbn [fold_left filter fst] in *.
  destruct (String.eqb k' k) eqn:E.
  - inversion H as [[Hk' Hv Hrest]]; subst.
    rewrite fold_assign_absent by assumption.
    unfold assign; cbn [fst snd]; now apply get_set_same.
  - now apply IH.
Qed.

Lemma select_by_key (u k : string) (t : table) :
  filter (fun p => String.eqb (fst p) k)
         (map (fun r => (fact_key r, fact_value r)) (rows_of u t)) =
  map (fun r => (fact_key r, fact_value r)) (filter (same_key u k) (rows t)).
Proof.
  rewrite <- rows_of_key.
  induction (rows_of u t) as [|r l IH]; [reflexivity|]; cbn [map filter fst].
  destruct (String.eqb (fact_key r) k); cbn [map]; now rewrite IH.
Qed.

Lemma fold_assign_congr (k : string) (rws : list (string * string)) (a1 a2 : obj) :
  JsObject.get k a1 = JsObject.get k a2 ->
  JsObject.get k (fold_left assign rws a1) = JsObject.get k (fold_left assign rws a2).
Proof.
  revert a1 a2; induction rws as [|[k' v'] rws IH]; intros a1 a2 H; [exact H|].
  cbn [fold_left]; apply IH; unfold assign; cbn [fst snd].
  destruct (String.eqb k k') eqn:E.
  - apply String.eqb_eq in E; subst k'.
    destruct (String.eqb k "__proto__") eqn:P.
    + apply String.eqb_eq in P; subst k; now rewrite !set_proto.
    + apply String.eqb_neq in P; now rewrite !get_set_same.
  - apply String.eqb_neq in E; now rewrite !get_set_other.
Qed.

(** Only the rows of a key decide what the dictionary holds for it. *)
Lemma fold_assign_filter (k : string) (rws : list (string * string)) (acc : obj) :
  JsObject.get k (fold_left assign rws acc) =
  JsObject.get k (fold_left assign (filter (fun p => String.eqb (fst p) k) rws) acc).
Proof.
  revert acc; induction rws as [|[k' v'] rws IH]; intros acc; [reflexivity|].
  cbn [fold_left filter fst]; destruct (String.eqb k' k) eqn:E.
  - cbn [fold_left]; apply IH.
  - rewrite IH; apply fold_assign_congr; unfold assign; cbn [fst snd].
    apply get_set_other; apply String.eqb_neq in E; congruence.
Qed.

(** Among rows of one ordinary key the last one wins. *)
Lemma fold_assign_last (k : string) (rws : list (string * string)) (acc : obj) :
  k <> "__proto__" ->
  Forall (fun p => fst p = k) rws ->
  JsObject.get k (fold_left assign rws acc) =
  match rev rws with
  | p :: _ => Some (snd p)
  | [] => JsObject.get k acc
  end.
Proof.
  intros Hk; induction rws as [|p rws IH] using rev_ind; intros Hall; [reflexivity|].
  rewrite fold_left_app, rev_app_distr; cbn [fold_left rev app].
  apply Forall_app in Hall as [_ Hp]; inversion Hp as [|? ? Hfst _]; subst.
  unfold assign at 1; now apply get_set_same.
Qed.

(** No row can put a [__proto__] entry into the dictionary. *)
Lemma fold_assign_proto (rws : list (string * string)) (acc : obj) :
  JsObject.get "__proto__" (fold_left assign rws acc) = JsObject.get "__proto__" acc.
Proof.
  revert acc; induction rws as [|[k' v'] rws IH]; intros acc; [reflexivity|].
  cbn [fold_left]; rewrite IH; unfold assign, JsObject.set; cbn [fst snd].
  destruct (String.eqb k' "__proto__") eqn:E; [reflexivity|].
  apply get_put_other; apply String.eqb_neq in E; congruence.
Qed.

End ObjectFacts.

(* ================================================================== *)
(** * Running the effects *)
(* ================================================================== *)

Section RunFacts.

Variable env : Env.

(** A statement with a callback, nothing else in flight. *)
Lemma db_run_eq (s : stmt) (d : database) (tr : list event) :
  db_run env s (World d tr []) =
  match io_error env s with
  | Some e => (Some e, World d (tr ++ [Sql s]) [])
  | None =>
      match Store.execute s d with
      | inl e => (Some e, World d (tr ++ [Sql s]) [])
      | inr d' => (None, World d' (tr ++ [Sql s]) [])
      end
  end.
Proof.
  unfold db_run, bind, emit; cbn [db trace inflight List.length race].
  unfold finish, complete; cbn [db trace inflight].
  destruct (io_error env s); [reflexivity|].
  now destruct (Store.execute s d).
Qed.

Lemma db_send_eq (s : stmt) (w : world) :
  db_send env s w = (tt, World (db w) (trace w ++ [Sql s]) (inflight w ++ [s])).
Proof. reflexivity. Qed.

Lemma saveFact_eq (u k v : string) (w : world) :
  saveFact env u k v w =
  (tt, World (db w) (trace w ++ [Sql (Upsert u k v)]) (inflight w ++ [Upsert u k v])).
Proof. reflexivity. Qed.

Lemma db_all_eq (u : string) (d : database) (tr : list event) :
  fst (db_all env u (World d tr [])) =
  match io_error env (SelectFacts u) with
  | Some e => inl e
  | None =>
      match memory d with
      | None => inl (no_such_table "memory")
      | Some _ => inr (select_facts u d)
      end
  end.
Proof.
  unfold db_all, bind; rewrite db_run_eq.
  destruct (io_error env (SelectFacts u)); [reflexivity|].
  cbn [Store.execute]; destruct (memory d); reflexivity.
Qed.

Lemma getFacts_eq (u : string) (d : database) (tr : list event) :
  getFacts env u (World d tr []) =
  (facts_of (fst (db_all env u (World d tr []))),
   World d (tr ++ [Sql (SelectFacts u)]) []).
Proof.
  unfold getFacts, db_all, bind, ret; rewrite db_run_eq.
  destruct (io_error env (SelectFacts u)); [reflexivity|].
  cbn [Store.execute]; destruct (memory d); reflexivity.
Qed.

(** What was read does not depend on what had happened before. *)
Lemma db_all_trace (u : string) (d : database) (tr : list event) :
  fst (db_all env u (World d tr [])) = fst (run (db_all env u) d).
Proof. unfold run; now rewrite !db_all_eq. Qed.

Lemma settle_from_nil (n : nat) (d : database) : settle_from env n [] d = (d, None).
Proof. destruct n; cbn [settle_from List.length]; [reflexivity|]. now destruct (lands env 0 mod 0). Qed.

Lemma settle_from_one (n : nat) (s : stmt) (d : database) :
  settle_from env (S n) [s] d =
  match complete env s d with
  | inl e => (d, Some e)
  | inr d' => (d', None)
  end.
Proof.
  cbn [settle_from List.length]; rewrite Nat.mod_1_r; cbn [nth_error remove_nth].
  destruct (complete env s d); [reflexivity | apply settle_from_nil].
Qed.

(** Two statements in flight land in the order the environment picks. *)
Lemma settle_from_two (s1 s2 : stmt) (d : database) :
  settle_from env 2 [s1; s2] d =
  if Nat.eqb (lands env 2 mod 2) 0
  then match complete env s1 d with
       | inl e => (d, Some e)
       | inr d1 => match complete env s2 d1 with
                   | inl e => (d1, Some e)
                   | inr d2 => (d2, None)
                   end
       end
  else match complete env s2 d with
       | inl e => (d, Some e)
       | inr d1 => match complete env s1 d1 with
                   | inl e => (d1, Some e)
                   | inr d2 => (d2, None)
                   end
       end.
Proof.
  pose proof (Nat.mod_upper_bound (lands env 2) 2) as B.
  cbn [settle_from List.length].
  destruct (lands env 2 mod 2) as [|[|n]]; [| |lia];
    cbn [Nat.eqb nth_error remove_nth];
    [destruct (complete env s1 d) | destruct (complete env s2 d)];
    try reflexivity; apply settle_from_one.
Qed.

Lemma settle_none (d : database) (tr : list event) :
  settle env (World d tr []) = (tt, World d tr []).
Proof. unfold settle; cbn; now rewrite app_nil_r. Qed.

Lemma remove_nth_In {A} (i : nat) (l : list A) (x : A) :
  In x (remove_nth i l) -> In x l.
Proof.
  revert i; induction l as [|y l IH]; intros [|i]; cbn [remove_nth]; intros H;
    try contradiction; [now right|].
  destruct H as [->|H]; [now left | right; now apply (IH i)].
Qed.

(** What every statement in flight preserves, their landing preserves. *)
Lemma settle_from_inv (P : database -> Prop) (n : nat) (l : list stmt) (d : database) :
  (forall s d0 d1, In s l -> P d0 -> complete env s d0 = inr d1 -> P d1) ->
  P d -> P (fst (settle_from env n l d)).
Proof.
  revert l d; induction n as [|n IH]; intros l d Hstep Hd; [exact Hd|].
  cbn [settle_from].
  destruct (nth_error l (lands env (List.length l) mod List.length l)) as [s|] eqn:E;
    [|exact Hd].
  destruct (complete env s d) as [e|d1] eqn:C; [exact Hd|].
  apply IH.
  - intros s' d0 d2 Hin; apply Hstep; now apply remove_nth_In in Hin.
  - apply (Hstep s d d1); [now apply nth_error_In in E | assumption | assumption].
Qed.

(** A statement other than the history insert leaves the history table as
    it was. *)
Lemma complete_history (s : stmt) (d d1 : database) :
  complete env s d = inr d1 ->
  history d1 = match s with
               | InsertHistory e => (history d ++ [e])%list
               | _ => history d
               end.
Proof.
  unfold complete; destruct (io_error env s); [discriminate|].
  destruct s; cbn [Store.execute]; intros H;
    repeat match type of H with
           | context [match ?x with _ => _ end] => destruct x
           end; inversion H; reflexivity.
Qed.

Lemma remove_nth_count {A} (p : A -> bool) (i : nat) (l : list A) (x : A) :
  nth_error l i = Some x ->
  List.length (filter p l) =
  (if p x then 1 else 0) + List.length (filter p (remove_nth i l)).
Proof.
  revert i; induction l as [|y l IH]; intros [|i]; cbn [nth_error remove_nth filter];
    try discriminate.
  - intros H; inversion H; subst; destruct (p x); reflexivity.
  - intros H; pose proof (IH i H) as G.
    destruct (p y), (p x); cbn [List.length] in *; lia.
Qed.

(** The history table only grows, by at most the inserts in flight. *)
Lemma settle_from_history (n : nat) (l : list stmt) (d : database) :
  exists h,
    history (fst (settle_from env n l d)) = (history d ++ h)%list /\
    List.length h <= List.length (filter (fun s => is_insert (Sql s)) l).
Proof.
  revert l d; induction n as [|n IH]; intros l d.
  - exists []; rewrite app_nil_r; split; [reflexivity | cbn; lia].
  - cbn [settle_from].
    destruct (nth_error l (lands env (List.length l) mod List.length l)) as [s|] eqn:E;
      [|exists []; rewrite app_nil_r; split; [reflexivity | cbn; lia]].
    destruct (complete env s d) as [e|d1] eqn:C;
      [exists []; rewrite app_nil_r; split; [reflexivity | cbn; lia]|].
    destruct (IH (remove_nth (lands env (List.length l) mod List.length l) l) d1)
      as (h & Hh & Hlen).
    rewrite (remove_nth_count (fun s => is_insert (Sql s)) _ _ E).
    rewrite Hh, (complete_history _ _ C).
    destruct s as [| | | | |u k v|u|e0]; cbn [is_insert] in *;
      try (exists h; split; [reflexivity | lia]).
    exists (e0 :: h); rewrite <- app_assoc; split; [reflexivity | cbn; lia].
Qed.

Lemma settle_trace (w : world) :
  exists l, trace (snd (settle env w)) = (trace w ++ l)%list /\
            forallb is_uncaught l = true /\ List.length l <= 1.
Proof.
  unfold settle; destruct (settle_from env _ _ _) as [d' [e|]]; cbn [snd trace].
  - exists [Uncaught e]; repeat split; cbn; lia.
  - exists []; repeat split; cbn; lia.
Qed.

Lemma settle_db (w : world) :
  db (snd (settle env w)) =
  fst (settle_from env (List.length (inflight w)) (inflight w) (db w)).
Proof. unfold settle; now destruct (settle_from env _ _ _). Qed.

End RunFacts.
(* ================================================================== *)
(** * The fact store: two saves of one key *)
(* ================================================================== *)

Lemma ready_migrated : migrated ready.
Proof. exists []; split; [reflexivity | constructor]. Qed.

Lemma offline_sound (t : Z) : storage_sound (offline t).
Proof. intros s; reflexivity. Qed.

Lemma overtaking_sound (t : Z) : storage_sound (overtaking t).
Proof. intros s; reflexivity. Qed.

Lemma complete_upsert (env : Env) (u k v : string) (d : database) (rs : list fact) :
  storage_sound env -> memory d = Some (Table true rs) ->
  complete env (Upsert u k v) d =
  inr (Database (Some (Table true (upsert u k v rs))) (memory_old d) (history d)).
Proof.
  intros Hio Hm; unfold complete; rewrite Hio; cbn [Store.execute].
  now rewrite Hm.
Qed.

(** The two upserts land in the order the environment picks, then the read
    runs. *)
Lemma save_twice_run (env : Env) (d : database) (u k v1 v2 : string) (rs : list fact) :
  storage_sound env -> memory d = Some (Table true rs) ->
  run (save_twice env u k v1 v2) d =
  getFacts env u
    (World (Database
              (Some (Table true
                       (if Nat.eqb (lands env 2 mod 2) 0
                        then upsert u k v2 (upsert u k v1 rs)
                        else upsert u k v1 (upsert u k v2 rs))))
              (memory_old d) (history d))
           [Sql (Upsert u k v1); Sql (Upsert u k v2)] []).
Proof.
  intros Hio Hm; destruct d as [mem old h]; cbn [memory memory_old history] in *.
  subst mem; unfold run, save_twice, bind.
  rewrite !saveFact_eq; cbn [db trace inflight app].
  unfold settle; cbn [db trace inflight List.length].
  rewrite settle_from_two.
  rewrite !(fun v rs' => @complete_upsert env u k v (Database (Some (Table true rs')) old h)
                           rs' Hio eq_refl).
  cbn [memory_old history].
  destruct (Nat.eqb (lands env 2 mod 2) 0); reflexivity.
Qed.

(** What the read finds when the table holds one row for the key. *)
Lemma getFacts_one_row (env : Env) (u k v : string) (tr : list event)
      (rs : list fact) (old : option table) (h : list entry) :
  storage_sound env ->
  filter (same_key u k) rs = [Fact u k v] -> k <> "__proto__" ->
  JsObject.get k (fst (getFacts env u (World (Database (Some (Table true rs)) old h) tr [])))
  = Some v.
Proof.
  intros Hio Hone Hk; rewrite getFacts_eq, db_all_eq, Hio; cbn [fst memory].
  unfold facts_of, select_facts; cbn [memory].
  apply (@fold_assign_single k v); [assumption|].
  now rewrite select_by_key; cbn [rows]; rewrite Hone.
Qed.

(** After two saves of one key, whatever the order in which they land, the
    table holds one row for the key, with the value of the save that landed
    last: the second one when they land in the order sent. *)
Lemma saveFact_twice_lands (env : Env) (d : database) (u k v1 v2 : string) :
  storage_sound env -> migrated d ->
  overwritten_by_last env d u k v1 v2.
Proof.
  intros Hio (rs & Hm & Hnd); unfold overwritten_by_last.
  rewrite (@save_twice_run env d u k v1 v2 rs Hio Hm).
  destruct (getFacts env u _) as [facts w] eqn:E.
  pose proof (f_equal fst E) as Ef; pose proof (f_equal snd E) as Ew.
  rewrite getFacts_eq in Ew; cbn [fst snd] in Ef, Ew; subst w; cbn [db].
  destruct (Nat.eqb (lands env 2 mod 2) 0) eqn:L.
  - exists v2; repeat split; auto.
    + eexists; repeat split; [now apply upsert_NoDup, upsert_NoDup|].
      now apply upsert_single, upsert_NoDup.
    + intros Hk; rewrite <- Ef.
      apply getFacts_one_row; [assumption | | assumption].
      now apply upsert_single, upsert_NoDup.
  - exists v1; repeat split; auto.
    + intros L0; rewrite L0 in L; discriminate.
    + eexists; repeat split; [now apply upsert_NoDup, upsert_NoDup|].
      now apply upsert_single, upsert_NoDup.
    + intros Hk; rewrite <- Ef.
      apply getFacts_one_row; [assumption | | assumption].
      now apply upsert_single, upsert_NoDup.
Qed.



(** In the order sent the second value is the one that stays. *)
Example saveFact_in_order :
  fst (run (save_twice (offline 0) "u1" "name" "Alex" "Sam") ready) = [("name", "Sam")].
Proof. reflexivity. Qed.

(* ================================================================== *)
(** * The migration *)
(* ================================================================== *)

Section MigrationFacts.

Variable env : Env.

Lemma benign_memory :
  includes "no such table" "SQLITE_ERROR: no such table: memory" = true.
Proof. reflexivity. Qed.

Ltac sql :=
  repeat first [ rewrite db_run_eq
               | rewrite benign_memory
               | match goal with H : _ = _ |- _ => rewrite H end
               | match goal with H : storage_sound _ |- _ => rewrite H end
               | progress cbn -[db_run includes] ].

(** An error of the first statement ends the migration at once. *)
Lemma migrate_stops_at_pragma (d : database) (e : string) :
  io_error env PragmaTableInfo = Some e ->
  run (migrateMemoryTable env) d =
  (tt, World d [Sql PragmaTableInfo;
                Console Error ["Error checking memory table:"; e]] []).
Proof. intros H; unfold run, migrateMemoryTable, bind; sql; reflexivity. Qed.

(** A rename error other than "no such table" ends the migration. *)
Lemma migrate_stops_at_rename (d : database) (e : string) :
  io_error env PragmaTableInfo = None ->
  io_error env AlterRename = Some e ->
  includes "no such table" e = false ->
  run (migrateMemoryTable env) d =
  (tt, World d [Sql PragmaTableInfo; Sql AlterRename;
                Console Error ["Error renaming memory table:"; e]] []).
Proof.
  intros H0 H1 He; unfold run, migrateMemoryTable, bind; sql; reflexivity.
Qed.

(** So does the rename onto a left-over [memory_old]. *)
Lemma migrate_stops_at_leftover (d : database) (t old : table) :
  storage_sound env ->
  memory d = Some t -> memory_old d = Some old ->
  run (migrateMemoryTable env) d =
  (tt, World d [Sql PragmaTableInfo; Sql AlterRename;
                Console Error
                  ["Error renaming memory table:";
                   "SQLITE_ERROR: there is already another table or index with this name: memory_old"]] []).
Proof.
  intros Hio Hm Ho; unfold run, migrateMemoryTable, bind; sql; reflexivity.
Qed.

(** An error of the create statement ends the migration: the table has
    been renamed away and nothing replaces it. *)
Lemma migrate_stops_at_create (d : database) (t : table) (e : string) :
  io_error env PragmaTableInfo = None ->
  io_error env AlterRename = None ->
  io_error env CreateMemory = Some e ->
  memory d = Some t -> memory_old d = None ->
  run (migrateMemoryTable env) d =
  (tt, World (Database None (Some t) (history d))
             [Sql PragmaTableInfo; Sql AlterRename; Sql CreateMemory;
              Console Error ["Error creating new memory table:"; e]] []).
Proof.
  intros H0 H1 H2 Hm Ho; unfold run, migrateMemoryTable, bind; sql; reflexivity.
Qed.

(** With no table to rename the rename fails with "no such table", which
    is let through: the create statement runs next. *)
Lemma migrate_benign_rename (d : database) :
  storage_sound env -> memory d = None ->
  exists rest,
    trace (snd (run (migrateMemoryTable env) d)) =
    Sql PragmaTableInfo :: Sql AlterRename :: Sql CreateMemory :: rest /\
    exists rs, memory (db (snd (run (migrateMemoryTable env) d))) =
               Some (Table true rs).
Proof.
  intros Hio Hm; unfold run, migrateMemoryTable, bind.
  destruct (memory_old d) as [old|] eqn:Ho; sql;
    (eexists; split; [reflexivity|]).
  - destruct (@copy_NoDup (rows old) []) as (rs' & -> & _); [constructor|].
    now exists rs'.
  - now exists [].
Qed.

(** A migration that meets no storage failure and no left-over
    [memory_old] ends in a migrated store, with the renamed table gone. *)
Lemma migrate_establishes (d : database) :
  storage_sound env -> memory_old d = None ->
  migrated (db (snd (run (migrateMemoryTable env) d))) /\
  memory_old (db (snd (run (migrateMemoryTable env) d))) = None.
Proof.
  intros Hio Ho; unfold run, migrateMemoryTable, bind.
  destruct (memory d) as [t|] eqn:Hm; sql.
  - destruct (@copy_NoDup (rows t) []) as (rs' & -> & Hnd); [constructor|].
    split; [now exists rs' | reflexivity].
  - split; [exists []; split; [reflexivity | constructor] | reflexivity].
Qed.

(** With no [memory_old] in the way, the four steps compose to the
    identity on a duplicate-free [UNIQUE] table. *)
Lemma migrate_round_trip (rs : list fact) (h : list entry) :
  storage_sound env -> NoDup (map key_of rs) ->
  db (snd (run (migrateMemoryTable env) (Database (Some (Table true rs)) None h))) =
  Database (Some (Table true rs)) None h.
Proof.
  intros Hio Hnd; unfold run, migrateMemoryTable, bind; sql.
  now rewrite (@copy_unique rs []).
Qed.

(** Run twice in succession, the second run changes nothing. *)
Lemma migrate_twice (d : database) :
  storage_sound env -> memory_old d = None ->
  db (snd (run (migrateMemoryTable env) (db (snd (run (migrateMemoryTable env) d))))) =
  db (snd (run (migrateMemoryTable env) d)).
Proof.
  intros Hio Ho.
  destruct (migrate_establishes d Hio Ho) as [(rs & Hm & Hnd) Hold].
  destruct (db (snd (run (migrateMemoryTable env) d))) as [m o h].
  cbn in Hm, Hold; subst; now apply migrate_round_trip.
Qed.

End MigrationFacts.

(** C6.  On a store that has been migrated (the fact table carries the
    uniqueness constraint, so no key is repeated), running the migration
    again leaves the database as it was: the same rows, in the same order. *)
Theorem migrate_again_identity (env : Env) (d : database) :
  storage_sound env -> migrated d ->
  db (snd (run (migrateMemoryTable env) d)) = d.
Proof.
  intros Hio (rs & Hm & Hnd).
  destruct (memory_old d) as [old|] eqn:Ho.
  - (* a renamed table is left over: the rename fails, nothing is touched *)
    now rewrite (migrate_stops_at_leftover d Hio Hm Ho).
  - (* rename, create, copy, drop *)
    destruct d as [m o h]; cbn in Hm, Ho; subst.
    now apply migrate_round_trip.
Qed.

Lemma migrate_again_identity_witness :
  db (snd (run (migrateMemoryTable (offline 0)) two_users)) = two_users.
Proof.
  apply migrate_again_identity.
  - intros s; reflexivity.
  - eexists; split; [reflexivity|].
    repeat constructor; simpl; intuition discriminate.
Defined.

(** C5, at the very first start (no table yet) and with a sound storage
    layer: the rename fails with "no such table" and is let through, the copy
    fails because there is no [memory_old], the failure is logged, and the
    drop statement is sent all the same; success is reported. *)
Theorem migrate_copy_failure_still_drops :
  run (migrateMemoryTable (offline 0)) fresh =
  (tt, World ready
         [Sql PragmaTableInfo; Sql AlterRename; Sql CreateMemory; Sql CopyFromOld;
          Console Error ["Error copying data:"; "SQLITE_ERROR: no such table: memory_old"];
          Sql DropOld;
          Console Log ["✅ Memory table migrated successfully"]] []).
Proof. reflexivity. Qed.

(** When the copy fails for a reason of the storage layer, the renamed table
    is dropped as well and its rows are gone. *)
Lemma migrate_copy_failure_loses_rows :
  run (migrateMemoryTable (failing_at CopyFromOld "SQLITE_IOERR: disk I/O error" 0)) legacy =
  (tt, World ready
         [Sql PragmaTableInfo; Sql AlterRename; Sql CreateMemory; Sql CopyFromOld;
          Console Error ["Error copying data:"; "SQLITE_IOERR: disk I/O error"];
          Sql DropOld;
          Console Log ["✅ Memory table migrated successfully"]] []).
Proof. reflexivity. Qed.
(* ================================================================== *)
(** * The chat route *)
(* ================================================================== *)

Section ChatFacts.

Variable env : Env.

Lemma post_eq (u m : string) (d : database) :
  truthy u = true -> truthy m = true ->
  run (post env u m) d =
  (res <- (facts <- getFacts env u ;; chat_with_facts env u m facts) ;;
   settle env ;;; ret res) (World d [] []).
Proof.
  intros Hu Hm; unfold run, post, chat; cbn [b_user_id b_message missing field].
  now rewrite Hu, Hm.
Qed.

Lemma question_not_empty (m : string) :
  test true re_what_name m = true -> truthy m = true.
Proof. destruct m; [discriminate | reflexivity]. Qed.

Lemma name_message_not_empty (m : string) (nm : result) :
  exec true re_my_name m = Some nm -> truthy m = true.
Proof. destruct m; [discriminate | reflexivity]. Qed.

Lemma callLLM_eq (p : string) (w : world) :
  callLLM env p w =
  (inr (llm_of env p), World (db w) (trace w ++ llm_events env p) (inflight w)).
Proof.
  unfold callLLM, llm_of, llm_events, canned.
  destruct (genAI env) as [gen|].
  - unfold bind, console_log, console_error, emit, ret.
    destruct (gen p); cbn [db trace inflight]; rewrite <- !app_assoc; reflexivity.
  - unfold ret; destruct w; cbn [db trace inflight]; now rewrite app_nil_r.
Qed.

(** A request with both fields: the answer, and the world once the
    statements it sent have landed. *)
Lemma post_run (u m : string) (d : database) :
  truthy u = true -> truthy m = true ->
  run (post env u m) d =
  (answer env d u m,
   snd (settle env (World d (request_trace env d u m) (sent env d u m)))).
Proof.
  intros Hu Hm; rewrite post_eq by assumption.
  unfold answer, request_trace, sent, name_upsert, history_row, prompt_of, known_facts.
  unfold run, bind at 1 2; rewrite !getFacts_eq; cbn [fst db trace app].
  unfold chat_with_facts, bind.
  destruct (test true re_what_name m).
  - destruct (exec true re_my_name m) as [nm|].
    + rewrite saveFact_eq; unfold ret, recall_reply; cbn [db trace inflight app map].
      destruct (JsObject.get "name" _) as [n|]; [destruct (truthy n)|];
        now destruct (settle env _).
    + unfold ret, recall_reply; cbn [app map].
      destruct (JsObject.get "name" _) as [n|]; [destruct (truthy n)|];
        now destruct (settle env _).
  - destruct (exec true re_my_name m) as [nm|].
    + rewrite saveFact_eq; unfold ret; rewrite callLLM_eq; cbv beta iota.
      unfold saveHistory; rewrite db_send_eq; cbn [db trace inflight app map].
      rewrite <- ?app_assoc; cbn [app].
      now destruct (settle env _).
    + unfold ret; rewrite callLLM_eq; cbv beta iota.
      unfold saveHistory; rewrite db_send_eq; cbn [db trace inflight app map].
      rewrite <- ?app_assoc; cbn [app].
      now destruct (settle env _).
Qed.

(** A request with an empty field changes nothing. *)
Lemma post_rejected (u m : string) (d : database) :
  truthy u && truthy m = false ->
  run (post env u m) d =
  (Response 400 (ErrorJson "Provide user_id and message"), World d [] []).
Proof.
  intros H; unfold run, post, chat; cbn [b_user_id b_message missing].
  apply andb_false_iff in H as [H|H]; rewrite H; cbn [negb orb];
    [reflexivity | now rewrite orb_true_r].
Qed.

Lemma includes_recall (n : string) : includes n (recall_reply (Some n)) = true.
Proof.
  unfold recall_reply; destruct n as [|c n]; [reflexivity|]; cbn [truthy].
  apply includes_iff; now exists "Your name is ", ".".
Qed.

(** What the route holds as the name is the name on record. *)
Lemma known_name (u m : string) (d : database) :
  JsObject.get "name" (known_facts env d u m) = name_on_record env d u m.
Proof.
  unfold known_facts, name_on_record.
  destruct (exec true re_my_name m) as [nm|]; [now apply get_set_same|].
  unfold run; rewrite getFacts_eq, db_all_eq; cbn [fst].
  destruct (io_error env (SelectFacts u)); [reflexivity|].
  destruct (memory d) as [t|] eqn:Hm; [|reflexivity].
  unfold facts_of, select_facts; rewrite Hm.
  rewrite fold_assign_filter, select_by_key.
  rewrite fold_assign_last; [| discriminate |].
  - rewrite <- map_rev; now destruct (rev (filter (same_key u "name") (rows t))).
  - apply Forall_forall; intros p Hp.
    apply in_map_iff in Hp as (r & <- & Hr); apply filter_In in Hr as [_ Hr].
    unfold same_key in Hr; apply andb_true_iff in Hr as [_ Hr].
    now apply String.eqb_eq in Hr.
Qed.

Lemma name_upsert_shape (u m : string) (s : stmt) :
  In s (name_upsert u m) -> exists v, s = Upsert u "name" v.
Proof.
  unfold name_upsert; destruct (exec true re_my_name m); [|intros []].
  intros [<-|[]]; now eexists.
Qed.

Lemma sent_shape (u m : string) (d : database) (s : stmt) :
  In s (sent env d u m) ->
  (exists v, s = Upsert u "name" v) \/ s = InsertHistory (history_row env d u m).
Proof.
  unfold sent; intros H; apply in_app_or in H as [H|H].
  - left; now apply name_upsert_shape in H.
  - destruct (test true re_what_name m); [contradiction|].
    destruct H as [<-|[]]; now right.
Qed.

(** The trace a request leaves: what it did, then the unhandled error, if a
    statement it sent failed. *)
Lemma post_trace (u m : string) (d : database) :
  truthy u = true -> truthy m = true ->
  exists l, trace (snd (run (post env u m) d)) = (request_trace env d u m ++ l)%list /\
            forallb is_uncaught l = true /\ List.length l <= 1.
Proof.
  intros Hu Hm; rewrite (@post_run u m d Hu Hm); cbn [snd].
  apply (@settle_trace env (World d (request_trace env d u m) (sent env d u m))).
Qed.

Lemma post_db (u m : string) (d : database) :
  truthy u = true -> truthy m = true ->
  db (snd (run (post env u m) d)) =
  fst (settle_from env (List.length (sent env d u m)) (sent env d u m) d).
Proof. intros Hu Hm; rewrite (@post_run u m d Hu Hm); cbn [snd]; now rewrite settle_db. Qed.

End ChatFacts.

Lemma uncaught_only (p : event -> bool) (l : list event) :
  (forall e, p (Uncaught e) = false) -> forallb is_uncaught l = true -> filter p l = [].
Proof.
  intros Hp; induction l as [|x l IH]; [reflexivity|]; cbn [forallb filter]; intros H.
  apply andb_true_iff in H as [Hx H]; destruct x; try discriminate.
  rewrite Hp; now apply IH.
Qed.

Lemma uncaught_not_in (l : list event) (x : event) :
  forallb is_uncaught l = true -> In x l -> is_uncaught x = true.
Proof. intros H Hin; rewrite forallb_forall in H; now apply H. Qed.

(** C7.  A chat request that lacks [user_id] or [message] is answered with
    status 400 and an error body, and nothing else happens: the database is
    as before and not a single statement was sent, so no fact or history row
    is written and no facts are read. *)
Theorem chat_missing_field (env : Env) (req_body : option body) (d : database) :
  lacks_field req_body ->
  run (chat env req_body) d =
  (Response 400 (ErrorJson "Provide user_id and message"), World d [] []).
Proof.
  unfold lacks_field, run, chat; destruct req_body as [b|]; [|reflexivity].
  intros [H|H]; rewrite H; [|rewrite orb_true_r]; reflexivity.
Qed.

Lemma chat_missing_field_witness :
  run (chat (offline 0) (Some (Body (Some "u1") None))) ready =
  (Response 400 (ErrorJson "Provide user_id and message"), World ready [] []).
Proof. apply chat_missing_field; right; reflexivity. Defined.

(** C4.  A chat request whose message matches the "what is my name"
    pattern is answered at once with status 200.  When a name is on record for
    the user (the value of the user's "name" row in the fact table, or the
    name the message itself gives) the reply contains it, and is "Your name is
    <name>." for a non-empty name; otherwise the reply says the name is not
    known.  The provider is not called, no history row is written and the
    history table is as before. *)
Theorem chat_name_recall (env : Env) (u m : string) (d : database) :
  truthy u = true -> test true re_what_name m = true ->
  recalls env u m d.
Proof.
  intros Hu Hq; pose proof (@question_not_empty m Hq) as Hm; unfold recalls.
  destruct (@post_trace env u m d Hu Hm) as (l & Htr & Hl & _).
  pose proof (@post_db env u m d Hu Hm) as Hdb.
  rewrite (@post_run env u m d Hu Hm) in *; cbn [snd] in Htr, Hdb.
  set (w := snd (settle env _)) in *.
  unfold answer; rewrite Hq; cbn [status json].
  assert (Hsent : forall s, In s (sent env d u m) -> exists v, s = Upsert u "name" v).
  { unfold sent; rewrite Hq, app_nil_r; apply name_upsert_shape. }
  assert (Hev : forall x, In x (trace w) ->
                  is_generate x = false /\ is_insert x = false).
  { intros x Hx; rewrite Htr in Hx; unfold request_trace in Hx; rewrite Hq in Hx.
    rewrite app_nil_r in Hx; apply in_app_or in Hx as [[<-|Hx]|Hx].
    - split; reflexivity.
    - apply in_map_iff in Hx as (s & <- & Hs).
      apply name_upsert_shape in Hs as (v & ->); split; reflexivity.
    - apply (@uncaught_not_in l x Hl) in Hx; destruct x; try discriminate.
      split; reflexivity. }
  split; [reflexivity|]; split; [|split; [|split]].
  - do 3 eexists; split; [reflexivity|]; rewrite known_name.
    destruct (name_on_record env d u m) as [n|]; [|reflexivity].
    split; [apply includes_recall|]; cbn [recall_reply]; now intros ->.
  - intros p Hin; apply Hev in Hin as [H _]; discriminate.
  - intros e Hin; apply Hev in Hin as [_ H]; discriminate.
  - rewrite Hdb.
    apply (@settle_from_inv env (fun d' => history d' = history d)); [|reflexivity].
    intros s d0 d1 Hin Hd0 C; apply Hsent in Hin as (v & ->).
    now rewrite (@complete_history env _ d0 d1 C).
Qed.

Lemma chat_name_recall_witness :
  recalls (live (fun _ => Generated "Hello!") 1) "u1" "What is my name?" alex_db.
Proof. apply chat_name_recall; reflexivity. Defined.

(** C10.  Whatever the environment, and so also with a provider configured,
    the reply to a "what is my name" request carries [simulated: true]. *)
Theorem name_recall_flagged_simulated (env : Env) (u m : string) (d : database) :
  truthy u = true -> test true re_what_name m = true ->
  exists reply tone,
    json (fst (run (post env u m) d)) = ReplyJson reply tone true.
Proof.
  intros Hu Hq; rewrite (@post_run env u m d Hu (@question_not_empty m Hq)).
  unfold answer; rewrite Hq; now do 2 eexists.
Qed.

Lemma name_recall_flagged_simulated_witness :
  genAI (live (fun _ => Generated "Hello!") 1) <> None /\
  exists reply tone,
    json (fst (run (post (live (fun _ => Generated "Hello!") 1) "u1" "what's my name")
                   alex_db)) = ReplyJson reply tone true.
Proof.
  split; [discriminate|].
  apply name_recall_flagged_simulated; reflexivity.
Defined.



(* ================================================================== *)
(** * Reading the facts *)
(* ================================================================== *)

(** C8.  [getFacts] always hands its caller a dictionary.  When the read
    fails the dictionary is empty, exactly as for a user who has no facts;
    the memory route answers with status 200 in every case, and with the
    empty object for a user who has no facts. *)
Theorem getFacts_masks_failure (env : Env) (u : string) (d : database) :
  (forall e, fst (run (db_all env u) d) = inl e ->
             fst (run (getFacts env u) d) = JsObject.empty) /\
  (select_facts u d = [] -> fst (run (getFacts env u) d) = JsObject.empty) /\
  status (fst (run (memory_route env u) d)) = 200 /\
  (select_facts u d = [] ->
   fst (run (memory_route env u) d) = Response 200 (FactsJson JsObject.empty)).
Proof.
  assert (Hnone : select_facts u d = [] ->
                  fst (run (getFacts env u) d) = JsObject.empty).
  { intros H; unfold run; rewrite getFacts_eq, db_all_eq; cbn [fst db].
    destruct (io_error env (SelectFacts u)); [reflexivity|].
    destruct (memory d); [|reflexivity]; now rewrite H. }
  repeat split.
  - intros e H; unfold run in *; rewrite getFacts_eq; cbn [fst]; now rewrite H.
  - exact Hnone.
  - unfold run, memory_route, bind; now destruct (getFacts env u _).
  - intros H; apply Hnone in H; unfold run, memory_route, bind in *.
    destruct (getFacts env u _) as [facts w]; cbn [fst] in *; now subst.
Qed.

Lemma getFacts_masks_failure_witness :
  fst (run (getFacts (offline 0) "u1") fresh) = JsObject.empty /\
  fst (run (memory_route (offline 0) "u2") alex_db) =
  Response 200 (FactsJson JsObject.empty).
Proof.
  split.
  - apply (proj1 (getFacts_masks_failure (offline 0) "u1" fresh)
             (no_such_table "memory")); reflexivity.
  - apply (proj2 (proj2 (proj2 (getFacts_masks_failure (offline 0) "u2" alex_db))));
      reflexivity.
Defined.

(* ================================================================== *)
(** * The offline replies *)
(* ================================================================== *)

(** None of the three guidance sentences contains the word "empathetic":
    the empathetic one says "empathy". *)
Lemma toneHint_lacks_empathetic (tone : Tone) :
  includes "empathetic" (toneHint tone) = false.
Proof. destruct tone; reflexivity. Qed.

(** Only the playful guidance sentence contains "playful". *)
Lemma toneHint_playful (tone : Tone) :
  includes "playful" (toneHint tone) = true <-> tone = playful.
Proof. destruct tone; split; (reflexivity || discriminate). Qed.

(** C1, at the message "I am sad" of a user without facts, offline: the
    tone is empathetic, the prompt carries the empathetic guidance sentence,
    and the reply is the neutral fallback sentence. *)
Theorem offline_sad_message_gets_neutral_reply :
  detectTone "I am sad" = empathetic /\
  includes (toneHint empathetic)
           (buildPrompt "u1" "I am sad" JsObject.empty empathetic) = true /\
  fst (run (post (offline 0) "u1" "I am sad") ready) =
  Response 200 (ReplyJson reply_neutral empathetic true).
Proof. repeat split; reflexivity. Qed.

(** The prompt also carries the message, so a neutral message that happens
    to contain the word gets the playful reply. *)
Lemma offline_neutral_message_gets_playful_reply :
  detectTone "what does playful mean?" = neutral /\
  fst (run (post (offline 0) "u1" "what does playful mean?") ready) =
  Response 200 (ReplyJson reply_playful neutral true).
Proof. split; reflexivity. Qed.

(** A playful message gets the playful reply, as long as nothing in the
    prompt says "empathetic". *)
Lemma offline_joke_gets_playful_reply :
  detectTone "tell me a joke" = playful /\
  fst (run (post (offline 0) "u1" "tell me a joke") ready) =
  Response 200 (ReplyJson reply_playful playful true).
Proof. split; reflexivity. Qed.

(** A neutral message without either word gets the fallback sentence. *)
Lemma offline_plain_message_gets_neutral_reply :
  detectTone "what's the weather" = neutral /\
  fst (run (post (offline 0) "u1" "what's the weather") ready) =
  Response 200 (ReplyJson reply_neutral neutral true).
Proof. split; reflexivity. Qed.
(* ================================================================== *)
(** * Captures *)
(* ================================================================== *)

Section CaptureFacts.

Variable icase : bool.

Lemma rep_max_from_cont (step : matcher) (more : nat) :
  answers_from_cont step -> answers_from_cont (rep_max step more).
Proof.
  intros Hstep; induction more as [|more IH]; intros s caps k m H; cbn [rep_max] in H.
  - now exists s, caps.
  - destruct (step s caps _) as [m'|] eqn:E.
    + inversion H; subst m'.
      apply Hstep in E as (s1 & c1 & E); now apply IH in E.
    + now exists s, caps.
Qed.

Lemma rep_min_from_cont (step : matcher) (lo more : nat) :
  answers_from_cont step -> answers_from_cont (rep_min step lo more).
Proof.
  intros Hstep; induction lo as [|lo IH]; intros s caps k m H; cbn [rep_min] in H.
  - now apply rep_max_from_cont in H.
  - apply Hstep in H as (s1 & c1 & H); now apply IH in H.
Qed.

(** Every answer of the matcher is an answer of its continuation. *)
Lemma rx_from_cont (r : regex) : answers_from_cont (rx icase r).
Proof.
  induction r as [|c|ranges|r1 IH1 r2 IH2|r1 IH1 r2 IH2|r IH lo hi|n r IH];
    intros s caps k m H; cbn [rx] in H.
  - now exists s, caps.
  - destruct s as [|d s]; [discriminate|].
    destruct (chr_eq icase c d); [now exists s, caps | discriminate].
  - destruct s as [|d s]; [discriminate|].
    destruct (class_match icase ranges d); [now exists s, caps | discriminate].
  - apply IH1 in H as (s1 & c1 & H); now apply IH2 in H.
  - destruct (rx icase r1 s caps k) as [m'|] eqn:E.
    + inversion H; subst m'; now apply IH1 in E.
    + now apply IH2 in H.
  - now apply rep_min_from_cont in H.
  - apply IH in H as (s1 & c1 & H); now exists s1, ((n, consumed s s1) :: c1).
Qed.

Lemma rx_cat (r1 r2 : regex) (s : string) (caps : captures) (k : cont) :
  rx icase (Cat r1 r2) s caps k =
  rx icase r1 s caps (fun s' caps' => rx icase r2 s' caps' k).
Proof. reflexivity. Qed.

Lemma rx_group (n : nat) (r : regex) (s : string) (caps : captures) (k : cont) :
  rx icase (Group n r) s caps k =
  rx icase r s caps (fun s' caps' => k s' ((n, consumed s s') :: caps')).
Proof. reflexivity. Qed.

Lemma exec_from_here (r : regex) (s : string) (m : result) :
  exec icase r s = Some m -> exists s0, match_here icase r s0 = Some m.
Proof.
  induction s as [|c s IH]; cbn [exec]; intros H.
  - destruct (match_here icase r "") eqn:E; [|discriminate].
    exists ""; congruence.
  - destruct (match_here icase r (String c s)) eqn:E; [|now apply IH].
    exists (String c s); congruence.
Qed.

End CaptureFacts.

(** A match of the name pattern always sets group 1. *)
Lemma re_my_name_sets_group (message : string) (m : result) :
  exec true re_my_name message = Some m ->
  exists g, capture 1 (snd m) = Some g.
Proof.
  intros H; apply exec_from_here in H as (s0 & H).
  unfold match_here, re_my_name in H; rewrite rx_cat in H.
  apply rx_from_cont in H as (s1 & c1 & H); rewrite rx_group in H.
  apply rx_from_cont in H as (s2 & c2 & H).
  inversion H; subst m; cbn; now eexists.
Qed.

(** The name question is recognised with "'s", with " is" or with neither,
    in any letter case and anywhere in the message. *)
Example what_name_examples :
  map (test true re_what_name)
      ["what is my name?"; "What's my name"; "so WHAT MY NAME then"; "whats my name";
       "what is your name?"] =
  [true; true; true; false; false].
Proof. reflexivity. Qed.

(** The name is the longest run of letters and spaces after "my name is ",
    forty at most, with the blanks at both ends removed. *)
Example my_name_examples :
  map (fun s => option_map (fun m => trim (group 1 m)) (exec true re_my_name s))
      ["my name is Alex"; "hi, MY NAME IS Mary Ann  , ok?"; "my name is 42"; "my name is  "] =
  [Some "Alex"; Some "Mary Ann"; None; Some ""].
Proof. reflexivity. Qed.

(* ================================================================== *)
(** * Substrings across separators *)
(* ================================================================== *)

Section SeparatorFacts.

Variable c : ascii.
Variable w : string.
Hypothesis Hw : has_char c w = false.

Lemma prefix_sep (a b : string) : prefix w (a ++ String c b) = prefix w a.
Proof.
  revert a; induction w as [|e w' IH]; intros a.
  - now rewrite !prefix_nil.
  - cbn [has_char] in Hw; apply orb_false_iff in Hw as [Hce Hw'].
    destruct a as [|d a]; cbn [append prefix].
    + destruct (ascii_dec e c) as [->|_]; [|reflexivity].
      now rewrite Ascii.eqb_refl in Hce.
    + destruct (ascii_dec e d); [now apply IH | reflexivity].
Qed.

(** A word without the separator lies on one side of it. *)
Lemma includes_sep (a b : string) :
  includes w (a ++ String c b) = includes w a || includes w b.
Proof.
  induction a as [|d a IH].
  - cbn [append]; rewrite includes_cons.
    change (includes w "") with (prefix w "" || false).
    pose proof (prefix_sep "" b) as P; cbn [append] in P.
    now rewrite orb_false_r, P.
  - cbn [append]; rewrite !includes_cons, IH.
    pose proof (prefix_sep (String d a) b) as P; cbn [append] in P.
    now rewrite P, orb_assoc.
Qed.

End SeparatorFacts.

(* ================================================================== *)
(** * What the statements of a request can touch *)
(* ================================================================== *)

Section FrameFacts.

Variable env : Env.

Lemma complete_insert (e : entry) (d : database) :
  storage_sound env ->
  complete env (InsertHistory e) d =
  inr (Database (memory d) (memory_old d) (history d ++ [e])).
Proof. intros Hio; unfold complete; now rewrite Hio. Qed.

(** The upsert of a name and the history insert keep a migrated store
    migrated and touch no row of another (user, key). *)
Lemma complete_frame (u : string) (s : stmt) (d d0 d1 : database) :
  (exists v, s = Upsert u "name" v) \/ (exists e, s = InsertHistory e) ->
  complete env s d0 = inr d1 ->
  (migrated d0 /\ memory_old d0 = memory_old d /\
   forall u' k', (u', k') <> (u, "name") -> fact_rows d0 u' k' = fact_rows d u' k') ->
  (migrated d1 /\ memory_old d1 = memory_old d /\
   forall u' k', (u', k') <> (u, "name") -> fact_rows d1 u' k' = fact_rows d u' k').
Proof.
  intros Hs C ((rs & Hm & Hnd) & Ho & Hf); unfold complete in C.
  destruct (io_error env s); [discriminate|].
  destruct Hs as [(v & ->)|(e & ->)]; cbn [Store.execute] in C.
  - rewrite Hm in C; cbn [uniq rows] in C; inversion C; subst d1; clear C.
    cbn [memory_old]; repeat split; [|assumption|].
    + exists (upsert u "name" v rs); split; [reflexivity | now apply upsert_NoDup].
    + intros u' k' Hne; rewrite <- (Hf u' k' Hne); unfold fact_rows.
      rewrite Hm; cbn [memory rows]; now apply upsert_others.
  - inversion C; subst d1; clear C; cbn [memory_old]; repeat split; [|assumption|].
    + now exists rs.
    + intros u' k' Hne; rewrite <- (Hf u' k' Hne); reflexivity.
Qed.

(** On a migrated store with a working storage layer the statements of a
    request land without failure, in whatever order: the name is upserted and
    the history row appended. *)
Lemma sent_lands (u m : string) (d : database) (rs : list fact) (tr : list event) :
  storage_sound env -> memory d = Some (Table true rs) ->
  settle env (World d tr (sent env d u m)) =
  (tt, World (Database
                (Some (Table true
                         (match exec true re_my_name m with
                          | Some nm => upsert u "name" (trim (group 1 nm)) rs
                          | None => rs
                          end)))
                (memory_old d)
                (history d ++ if test true re_what_name m then []
                              else [history_row env d u m]))
             tr []).
Proof.
  intros Hio Hm; destruct d as [mem old h]; cbn [memory memory_old history] in *.
  subst mem; unfold sent, name_upsert, settle.
  set (row := history_row env _ u m).
  destruct (exec true re_my_name m) as [nm|], (test true re_what_name m);
    cbn [app db trace inflight List.length].
  - rewrite settle_from_one.
    rewrite (@complete_upsert env u "name" _ (Database (Some (Table true rs)) old h) rs
               Hio eq_refl).
    cbn [memory_old history]; rewrite ?app_nil_r; reflexivity.
  - rewrite settle_from_two.
    rewrite (@complete_upsert env u "name" _ (Database (Some (Table true rs)) old h) rs
               Hio eq_refl).
    rewrite !complete_insert by assumption; cbn [memory memory_old history].
    rewrite (@complete_upsert env u "name" _
               (Database (Some (Table true rs)) old (h ++ [row])) rs Hio eq_refl).
    cbn [memory_old history]; rewrite ?app_nil_r.
    destruct (Nat.eqb (lands env 2 mod 2) 0); now rewrite app_nil_r.
  - rewrite settle_from_nil; rewrite ?app_nil_r; reflexivity.
  - rewrite settle_from_one, complete_insert by assumption.
    cbn [memory memory_old history]; rewrite ?app_nil_r; reflexivity.
Qed.

(** The store a request leaves on a migrated store with a working storage
    layer. *)
Lemma post_lands (u m : string) (d : database) (rs : list fact) :
  storage_sound env -> memory d = Some (Table true rs) ->
  truthy u = true -> truthy m = true ->
  snd (run (post env u m) d) =
  World (Database
           (Some (Table true
                    (match exec true re_my_name m with
                     | Some nm => upsert u "name" (trim (group 1 nm)) rs
                     | None => rs
                     end)))
           (memory_old d)
           (history d ++ if test true re_what_name m then []
                         else [history_row env d u m]))
        (request_trace env d u m) [].
Proof.
  intros Hio Hm Hu Hm'; rewrite (@post_run env u m d Hu Hm'); cbn [snd].
  now rewrite (@sent_lands u m d rs _ Hio Hm).
Qed.

End FrameFacts.

Lemma request_trace_quiet (env : Env) (d : database) (u m : string) (e : string) :
  ~ In (Uncaught e) (request_trace env d u m).
Proof.
  unfold request_trace; intros [H|H]; [discriminate|].
  apply in_app_or in H as [H|H].
  - apply in_map_iff in H as (s & Hs & _); discriminate.
  - destruct (test true re_what_name m); [contradiction|].
    apply in_app_or in H as [H|[H|[]]]; [|discriminate].
    unfold llm_events in H; destruct (genAI env) as [gen|]; [|contradiction].
    destruct H as [H|[H|H]]; try discriminate.
    destruct (gen _); [contradiction|]; destruct H as [H|[]]; discriminate.
Qed.

(* ================================================================== *)
(** * More on the chat route *)
(* ================================================================== *)

(** X12.  A generated reply is logged as sent.  On a migrated store with a
    working storage layer, when a well-formed request is not a name question,
    the statements it sent land without failure, the process goes on, and the
    history table has grown by exactly one row, which holds the user, the
    message, the very reply text of the response, the tone of the response
    and the clock reading. *)
Theorem generated_reply_is_logged (env : Env) (u m : string) (d : database) :
  storage_sound env -> migrated d ->
  truthy u = true -> truthy m = true -> test true re_what_name m = false ->
  exists reply tone sim,
    json (fst (run (post env u m) d)) = ReplyJson reply tone sim /\
    history (db (snd (run (post env u m) d))) =
    (history d ++ [Entry u m reply (tone_text tone) (now env)])%list /\
    ~ exited (snd (run (post env u m) d)).
Proof.
  intros Hio (rs & Hrs & _) Hu Hm Hq.
  rewrite (@post_lands env u m d rs Hio Hrs Hu Hm).
  rewrite (@post_run env u m d Hu Hm); unfold answer; rewrite Hq; cbn [fst json db history].
  do 3 eexists; split; [reflexivity|]; split; [reflexivity|].
  intros (e & He); cbn [trace] in He; now apply request_trace_quiet in He.
Qed.

Lemma generated_reply_is_logged_witness :
  exists reply tone sim,
    json (fst (run (post (offline 7) "u1" "tell me a JOKE") alex_db)) =
      ReplyJson reply tone sim /\
    history (db (snd (run (post (offline 7) "u1" "tell me a JOKE") alex_db))) =
    (history alex_db ++ [Entry "u1" "tell me a JOKE" reply (tone_text tone) 7])%list /\
    ~ exited (snd (run (post (offline 7) "u1" "tell me a JOKE") alex_db)).
Proof.
  apply (@generated_reply_is_logged (offline 7) "u1" "tell me a JOKE" alex_db);
    try reflexivity.
  - exact (offline_sound 7).
  - eexists; split; [reflexivity|]; repeat constructor; simpl; intuition.
Defined.

(** X10.  One request, at most one of each effect.  Whatever the request and
    whatever the environment, the chat route sends at most one fact upsert
    and at most one history insert and calls the provider at most once; the
    history table only grows, by at most one row. *)
Theorem chat_effects_bounded (env : Env) (req_body : option body) (d : database) :
  let w := snd (run (chat env req_body) d) in
  List.length (filter is_upsert (trace w)) <= 1 /\
  List.length (filter is_insert (trace w)) <= 1 /\
  List.length (filter is_generate (trace w)) <= 1 /\
  exists l, history (db w) = (history d ++ l)%list /\ List.length l <= 1.
Proof.
  assert (Hnone : forall w, w = World d [] [] ->
            List.length (filter is_upsert (trace w)) <= 1 /\
            List.length (filter is_insert (trace w)) <= 1 /\
            List.length (filter is_generate (trace w)) <= 1 /\
            exists l, history (db w) = (history d ++ l)%list /\ List.length l <= 1).
  { intros w ->; cbn; repeat split; try lia.
    exists []; rewrite app_nil_r; split; [reflexivity | cbn; lia]. }
  destruct req_body as [[[u|] [m|]]|];
    try (apply Hnone; unfold run, chat; cbn [b_user_id b_message missing];
         rewrite ?orb_true_r; reflexivity).
  change (chat env (Some (Body (Some u) (Some m)))) with (post env u m).
  destruct (truthy u && truthy m) eqn:Ht.
  - apply andb_true_iff in Ht as [Hu Hm]; cbn zeta.
    destruct (@post_trace env u m d Hu Hm) as (l & -> & Hl & _).
    rewrite (@post_db env u m d Hu Hm).
    rewrite !filter_app, !(@uncaught_only _ l) by (assumption || reflexivity).
    rewrite !app_nil_r.
    assert (Hl' : filter is_upsert (llm_events env (prompt_of env d u m)) = [] /\
                  filter is_insert (llm_events env (prompt_of env d u m)) = [] /\
                  List.length (filter is_generate (llm_events env (prompt_of env d u m))) <= 1).
    { unfold llm_events; destruct (genAI env) as [gen|]; [|cbn; auto].
      destruct (gen _); cbn; auto. }
    destruct Hl' as (Hl1 & Hl2 & Hl3).
    destruct (settle_from_history env (List.length (sent env d u m)) (sent env d u m) d)
      as (h & Hh & Hlen).
    unfold request_trace, sent, name_upsert in *.
    destruct (exec true re_my_name m), (test true re_what_name m);
      cbn [map app filter is_upsert is_insert is_generate List.length] in *;
      rewrite ?filter_app, ?Hl1, ?Hl2, ?length_app;
      cbn [map app filter is_upsert is_insert is_generate List.length];
      repeat split; try lia; exists h; split; auto.
  - rewrite (@post_rejected env u m d Ht); apply Hnone; reflexivity.
Qed.

(** X11.  A chat request keeps the fact table sound and local.  On a migrated
    store, after any request with a user and a message the store is still
    migrated, [memory_old] is as before, and the only rows that can have
    changed are those of the requesting user's "name". *)
Theorem chat_keeps_store (env : Env) (u m : string) (d : database) :
  migrated d ->
  let d' := db (snd (run (post env u m) d)) in
  migrated d' /\ memory_old d' = memory_old d /\
  forall u' k', (u', k') <> (u, "name") -> fact_rows d' u' k' = fact_rows d u' k'.
Proof.
  intros Hmig; cbn zeta.
  destruct (truthy u && truthy m) eqn:Ht.
  - apply andb_true_iff in Ht as [Hu Hm]; rewrite (@post_db env u m d Hu Hm).
    apply (@settle_from_inv env
             (fun d0 => migrated d0 /\ memory_old d0 = memory_old d /\
                        forall u' k', (u', k') <> (u, "name") ->
                                      fact_rows d0 u' k' = fact_rows d u' k'));
      [|auto].
    intros s d0 d1 Hin Hd0 C.
    apply (@complete_frame env u s d d0 d1); [|assumption|assumption].
    apply sent_shape in Hin as [H| ->]; [now left | right; now eexists].
  - rewrite (@post_rejected env u m d Ht); cbn [snd db]; auto.
Qed.

Lemma chat_keeps_store_witness :
  let d' := db (snd (run (post (offline 0) "u2" "my name is Kim") alex_db)) in
  migrated d' /\ memory_old d' = memory_old alex_db /\
  forall u' k', (u', k') <> ("u2", "name") -> fact_rows d' u' k' = fact_rows alex_db u' k'.
Proof.
  apply chat_keeps_store.
  eexists; split; [reflexivity|]; repeat constructor; simpl; intuition.
Defined.

(* ================================================================== *)
(** * The prompt, line by line *)
(* ================================================================== *)

Section PromptFacts.

Lemma buildPrompt_lines (u m : string) (facts : obj) (tone : Tone) :
  buildPrompt u m facts tone =
  persona ++ String (ascii_of_N 10)
    (factsText facts ++ String (ascii_of_N 10)
      (toneHint tone ++ String (ascii_of_N 10)
        ("User:" ++ String " " (m ++ String (ascii_of_N 10) "Assistant:")))).
Proof. reflexivity. Qed.

(** A word without blank or line feed occurs in the prompt only inside one
    of its pieces. *)
Lemma includes_prompt (w u m : string) (facts : obj) (tone : Tone) :
  has_char (ascii_of_N 10) w = false -> has_char " " w = false ->
  includes w (buildPrompt u m facts tone) =
  includes w persona || (includes w (factsText facts) ||
  (includes w (toneHint tone) || (includes w "User:" ||
  (includes w m || includes w "Assistant:")))).
Proof.
  intros Hn Hs; rewrite buildPrompt_lines.
  now rewrite !(@includes_sep _ _ Hn), (@includes_sep _ _ Hs), (@includes_sep _ _ Hn).
Qed.

Lemma canned_prompt (u m : string) (facts : obj) (tone : Tone) :
  canned (buildPrompt u m facts tone) = offline_choice tone facts m.
Proof.
  unfold canned, offline_choice.
  rewrite !includes_prompt by reflexivity.
  rewrite toneHint_lacks_empathetic.
  change (includes "empathetic" persona) with false.
  change (includes "empathetic" "User:") with false.
  change (includes "empathetic" "Assistant:") with false.
  change (includes "playful" persona) with false.
  change (includes "playful" "User:") with false.
  change (includes "playful" "Assistant:") with false.
  cbn [orb]; rewrite !orb_false_r.
  destruct (includes "empathetic" (factsText facts) || includes "empathetic" m);
    [reflexivity|].
  replace (includes "playful" (toneHint tone))
    with (match tone with playful => true | _ => false end)
    by (now destruct tone).
  destruct tone, (includes "playful" (factsText facts)), (includes "playful" m);
    reflexivity.
Qed.

End PromptFacts.

(** X13.  How the offline reply is chosen.  Without a provider, the reply to a
    well-formed request that is not a name question is the empathetic
    template exactly when the facts clause or the message contains
    "empathetic" (the tone plays no part); otherwise the playful template
    when the tone is playful or the facts clause or the message contains
    "playful"; otherwise the neutral sentence.  It is always flagged as
    simulated. *)
Theorem offline_reply_choice (env : Env) (u m : string) (d : database) :
  genAI env = None ->
  truthy u = true -> truthy m = true -> test true re_what_name m = false ->
  json (fst (run (post env u m) d)) =
  ReplyJson (offline_choice (detectTone m) (known_facts env d u m) m)
            (detectTone m) true.
Proof.
  intros Hg Hu Hm Hq; rewrite (@post_run env u m d Hu Hm); unfold answer.
  rewrite Hq; cbn [fst json].
  unfold llm_of, prompt_of; rewrite Hg; cbn [text simulated].
  now rewrite canned_prompt.
Qed.

Lemma offline_reply_choice_witness :
  json (fst (run (post (offline 0) "u1" "be empathetic, I am sad") alex_db)) =
  ReplyJson reply_empathetic empathetic true.
Proof.
  apply (@offline_reply_choice (offline 0) "u1" "be empathetic, I am sad" alex_db);
    reflexivity.
Defined.



(** The facts of a user reach the prompt in the order of their keys, not in
    the order in which they were saved. *)
Example prompt_lists_facts_by_key :
  prompt_of (offline 0)
            (Database (Some (Table true [Fact "u1" "name" "Alex"; Fact "u1" "city" "Oslo"]))
                      None [])
            "u1" "hi" =
  persona ++ nl ++
  "Known facts about the USER: {" ++ JsObject.quote "city" ++ ":" ++ JsObject.quote "Oslo"
    ++ "," ++ JsObject.quote "name" ++ ":" ++ JsObject.quote "Alex" ++ "}" ++ nl ++
  toneHint neutral ++ nl ++ "User: hi" ++ nl ++ "Assistant:".
Proof. reflexivity. Qed.

(* ================================================================== *)
(** * Reading back what was saved *)
(* ================================================================== *)

Section ReadFacts.

Lemma getFacts_of_table (env : Env) (u : string) (d : database) (t : table) :
  io_error env (SelectFacts u) = None -> memory d = Some t ->
  fst (run (getFacts env u) d) =
  fold_left assign
    (map (fun r => (fact_key r, fact_value r)) (rows_of u t))
    JsObject.empty.
Proof.
  intros Hio Hm; unfold run; rewrite getFacts_eq, db_all_eq, Hio; cbn [fst].
  rewrite Hm; unfold facts_of, select_facts; now rewrite Hm.
Qed.

Lemma rows_of_upsert_other (u k v u' : string) (rs : list fact) :
  u' <> u ->
  rows_of u' (Table true (upsert u k v rs)) = rows_of u' (Table true rs).
Proof. intros Hne; unfold rows_of; cbn [uniq rows]; now rewrite upsert_other_user. Qed.

(** A read sent while an upsert is in flight is served after it or before
    it, as the environment has it. *)
Lemma read_races_upsert (env : Env) (u k v : string) (d : database) (rs : list fact) :
  storage_sound env -> memory d = Some (Table true rs) ->
  fst (run (saveFact env u k v ;;; getFacts env u) d) =
  fst (run (getFacts env u)
           (if Nat.eqb (lands env 2 mod 2) 0
            then Database (Some (Table true (upsert u k v rs))) (memory_old d) (history d)
            else d)).
Proof.
  intros Hio Hm.
  assert (Hread : forall d0 rs0, memory d0 = Some (Table true rs0) ->
            fst (run (getFacts env u) d0) = facts_of (inr (select_facts u d0))).
  { intros d0 rs0 H0; unfold run; now rewrite getFacts_eq, db_all_eq, Hio, H0. }
  pose proof (Nat.mod_upper_bound (lands env 2) 2) as B.
  destruct (lands env 2 mod 2) as [|[|n]] eqn:L; [| |lia]; cbn [Nat.eqb].
  - rewrite (Hread (Database (Some (Table true (upsert u k v rs))) (memory_old d) (history d))
                   (upsert u k v rs) eq_refl).
    unfold run, bind; rewrite saveFact_eq; cbn [db trace inflight app].
    unfold getFacts, db_all, db_run, bind, emit, ret.
    cbn [db trace inflight List.length race]; rewrite L; cbn [nth_error remove_nth].
    rewrite (@complete_upsert env u k v d rs Hio Hm); cbn [race inflight].
    unfold finish, complete; rewrite Hio; cbn [db Store.execute memory fst].
    reflexivity.
  - rewrite (Hread d rs Hm).
    unfold run, bind; rewrite saveFact_eq; cbn [db trace inflight app].
    unfold getFacts, db_all, db_run, bind, emit, ret.
    cbn [db trace inflight List.length race]; rewrite L; cbn [nth_error remove_nth].
    unfold finish, complete; rewrite Hio; cbn [db Store.execute].
    now rewrite Hm.
Qed.

Lemma save_settled (env : Env) (u k v : string) (d : database) (rs : list fact) :
  storage_sound env -> memory d = Some (Table true rs) ->
  snd (run (saveFact env u k v ;;; settle env) d) =
  World (Database (Some (Table true (upsert u k v rs))) (memory_old d) (history d))
        [Sql (Upsert u k v)] [].
Proof.
  intros Hio Hm; unfold run, bind; rewrite saveFact_eq; cbn [db trace inflight app].
  unfold settle; cbn [db trace inflight List.length]; rewrite settle_from_one.
  rewrite (@complete_upsert env u k v d rs Hio Hm); cbn [snd]; now rewrite app_nil_r.
Qed.

End ReadFacts.
(** X4.  What [getFacts] answers on any table.  When the read succeeds, the
    dictionary maps an ordinary key to the value of the last row the user
    has for it, and has no entry when there is no such row; it never has an
    entry for [__proto__]. *)
Theorem getFacts_last_row (env : Env) (u k : string) (d : database) (t : table) :
  io_error env (SelectFacts u) = None -> memory d = Some t ->
  (k <> "__proto__" ->
   JsObject.get k (fst (run (getFacts env u) d)) =
   option_map fact_value (hd_error (rev (filter (same_key u k) (rows t))))) /\
  JsObject.get "__proto__" (fst (run (getFacts env u) d)) = None.
Proof.
  intros Hio Hm; rewrite (@getFacts_of_table env u d t Hio Hm); split.
  - intros Hk; rewrite fold_assign_filter, select_by_key.
    rewrite fold_assign_last; [|assumption|].
    + rewrite <- map_rev; now destruct (rev (filter (same_key u k) (rows t))).
    + apply Forall_forall; intros p Hp.
      apply in_map_iff in Hp as (r & <- & Hr); apply filter_In in Hr as [_ Hr].
      unfold same_key in Hr; apply andb_true_iff in Hr as [_ Hr].
      now apply String.eqb_eq in Hr.
  - apply fold_assign_proto.
Qed.

Lemma getFacts_last_row_witness :
  JsObject.get "name" (fst (run (getFacts (offline 0) "u1") legacy)) = Some "Sam" /\
  JsObject.get "__proto__" (fst (run (getFacts (offline 0) "u1") legacy)) = None.
Proof.
  destruct (@getFacts_last_row (offline 0) "u1" "name" legacy
              (Table false [Fact "u1" "name" "Alex"; Fact "u1" "name" "Sam";
                            Fact "u2" "name" "Kim"]) eq_refl eq_refl) as [H1 H2].
  split; [apply H1; discriminate | exact H2].
Defined.

(** X5.  A saved fact reads back once its statement has landed, and only it
    changes.  On a migrated store with a working storage layer, after
    [saveFact(u, k, v)] has landed the dictionary of [u] maps [k] to [v] (for
    an ordinary key), holds for every other key what it held before, and the
    dictionary of every other user is as before.  A [getFacts(u)] sent right
    after the save, without waiting, is served after the upsert or before it:
    it hands back the new dictionary or the old one. *)
Theorem saveFact_then_getFacts (env : Env) (u k v : string) (d : database) :
  storage_sound env -> migrated d ->
  let d' := db (snd (run (saveFact env u k v ;;; settle env) d)) in
  (k <> "__proto__" -> JsObject.get k (fst (run (getFacts env u) d')) = Some v) /\
  (forall k', k' <> k ->
     JsObject.get k' (fst (run (getFacts env u) d')) =
     JsObject.get k' (fst (run (getFacts env u) d))) /\
  (forall u', u' <> u ->
     fst (run (getFacts env u') d') = fst (run (getFacts env u') d)) /\
  fst (run (saveFact env u k v ;;; getFacts env u) d) =
  fst (run (getFacts env u) (if Nat.eqb (lands env 2 mod 2) 0 then d' else d)).
Proof.
  intros Hio (rs & Hm & Hnd); cbn zeta.
  rewrite (@save_settled env u k v d rs Hio Hm); cbn [db].
  assert (Hd' : memory (Database (Some (Table true (upsert u k v rs)))
                                 (memory_old d) (history d)) =
                Some (Table true (upsert u k v rs))) by reflexivity.
  repeat split.
  - intros Hk; rewrite (@getFacts_of_table env u _ _ (Hio _) Hd').
    apply (@fold_assign_single k v); [assumption|].
    now rewrite select_by_key; cbn [rows]; rewrite upsert_single.
  - intros k' Hne.
    rewrite (@getFacts_of_table env u _ _ (Hio _) Hd'), (@getFacts_of_table env u _ _ (Hio _) Hm).
    rewrite fold_assign_filter, (fold_assign_filter k' (map _ (rows_of u (Table true rs)))).
    rewrite !select_by_key; cbn [rows]; rewrite upsert_others; [reflexivity | congruence].
  - intros u' Hne.
    rewrite (@getFacts_of_table env u' _ _ (Hio _) Hd'), (@getFacts_of_table env u' _ _ (Hio _) Hm).
    now rewrite rows_of_upsert_other.
  - apply (@read_races_upsert env u k v d rs Hio Hm).
Qed.

Lemma saveFact_then_getFacts_witness :
  let d' := db (snd (run (saveFact (overtaking 0) "u1" "city" "Oslo" ;;; settle (overtaking 0))
                         alex_db)) in
  JsObject.get "city" (fst (run (getFacts (overtaking 0) "u1") d')) = Some "Oslo" /\
  JsObject.get "name" (fst (run (getFacts (overtaking 0) "u1") d')) = Some "Alex" /\
  fst (run (saveFact (overtaking 0) "u1" "city" "Oslo" ;;; getFacts (overtaking 0) "u1")
           alex_db) = [("name", "Alex")].
Proof.
  destruct (@saveFact_then_getFacts (overtaking 0) "u1" "city" "Oslo" alex_db
              (overtaking_sound 0)) as (H1 & H2 & _ & H4).
  - eexists; split; [reflexivity|]; repeat constructor; simpl; intuition.
  - split; [apply H1; discriminate|]; split.
    + cbn zeta; rewrite H2 by discriminate; reflexivity.
    + rewrite H4; reflexivity.
Defined.

(* ================================================================== *)
(** * More on the migration *)
(* ================================================================== *)

Section CopyFacts.

Lemma filter_app_key (u k : string) (l1 l2 : list fact) :
  filter (same_key u k) (l1 ++ l2) =
  (filter (same_key u k) l1 ++ filter (same_key u k) l2)%list.
Proof. apply filter_app. Qed.

(** Of the rows of a key the copy keeps the first. *)
Lemma copy_first (u k : string) (rs acc : list fact) :
  NoDup (map key_of acc) ->
  filter (same_key u k) (rows (fold_left insert_or_ignore rs (Table true acc))) =
  firstn 1 (filter (same_key u k) (acc ++ rs)).
Proof.
  revert acc; induction rs as [|r rs IH]; intros acc Hnd; cbn [fold_left].
  - rewrite app_nil_r; cbn [rows].
    destruct (filter (same_key u k) acc) as [|x [|y l]] eqn:E; try reflexivity.
    exfalso.
    assert (Hx : In x (filter (same_key u k) acc)) by (rewrite E; now left).
    assert (Hy : In y (filter (same_key u k) acc)) by (rewrite E; right; now left).
    clear Hx Hy.
    revert E Hnd; clear; induction acc as [|a acc IHacc]; intros E Hnd; [discriminate|].
    cbn [filter map] in *; inversion Hnd as [|? ? Hnotin Hnd']; subst.
    destruct (same_key u k a) eqn:Ea; [|now apply IHacc].
    inversion E as [[Hax Hrest]]; subst.
    assert (Hy : In y (filter (same_key u k) acc)) by (rewrite Hrest; now left).
    apply filter_In in Hy as [Hin Hk].
    apply same_key_iff in Ea; apply same_key_iff in Hk.
    apply Hnotin; rewrite Ea, <- Hk; now apply in_map.
  - unfold insert_or_ignore at 2; cbn [uniq rows andb].
    destruct (existsb (same_key (user_id r) (fact_key r)) acc) eqn:E.
    + rewrite IH by assumption; rewrite !filter_app_key; cbn [filter].
      destruct (same_key u k r) eqn:Er; [|reflexivity].
      apply existsb_exists in E as (x & Hx & Ex).
      apply same_key_iff in Er; apply same_key_iff in Ex.
      assert (Hin : In x (filter (same_key u k) acc)).
      { apply filter_In; split; [assumption|]; apply same_key_iff.
        unfold key_of in *; congruence. }
      destruct (filter (same_key u k) acc); [contradiction | reflexivity].
    + rewrite IH.
      * now rewrite <- app_assoc.
      * rewrite map_app; apply NoDup_app; repeat split; auto.
        -- constructor; [intros []|constructor].
        -- intros x Hx [<-|[]].
           apply in_map_iff in Hx as (y & Hy & Hin).
           assert (existsb (same_key (user_id r) (fact_key r)) acc = true)
             by (apply existsb_exists; exists y; split;
                 [assumption | now apply same_key_iff]).
           congruence.
Qed.

End CopyFacts.

Section MigrationResults.

Variable env : Env.

Ltac sql :=
  repeat first [ rewrite db_run_eq
               | rewrite benign_memory
               | match goal with H : _ = _ |- _ => rewrite H end
               | match goal with H : storage_sound _ |- _ => rewrite H end
               | progress cbn -[db_run includes] ].

(** The database a migration leaves when there is a table to upgrade. *)
Lemma migrate_upgrade (d : database) (t : table) :
  storage_sound env -> memory d = Some t -> memory_old d = None ->
  db (snd (run (migrateMemoryTable env) d)) =
  Database (Some (fold_left insert_or_ignore (rows t) (Table true []))) None (history d).
Proof. intros Hio Hm Ho; unfold run, migrateMemoryTable, bind; now sql. Qed.

(** The database a migration leaves on the first start. *)
Lemma migrate_first_start (d : database) :
  storage_sound env -> memory d = None -> memory_old d = None ->
  db (snd (run (migrateMemoryTable env) d)) =
  Database (Some (Table true [])) None (history d).
Proof. intros Hio Hm Ho; unfold run, migrateMemoryTable, bind; now sql. Qed.

End MigrationResults.

(** X6.  What a completed migration leaves.  With a working storage layer
    and no left-over [memory_old], the migration ends with a fact table that
    carries the constraint and repeats no key, without [memory_old], and with
    the history table untouched, whether the store was fresh, legacy or
    already migrated. *)
Theorem migrate_completes (env : Env) (d : database) :
  storage_sound env -> memory_old d = None ->
  let d' := db (snd (run (migrateMemoryTable env) d)) in
  migrated d' /\ memory_old d' = None /\ history d' = history d.
Proof.
  intros Hio Ho; cbn zeta; destruct (memory d) as [t|] eqn:Hm.
  - rewrite (@migrate_upgrade env d t Hio Hm Ho); cbn [memory_old history].
    destruct (@copy_NoDup (rows t) []) as (rs' & Hrs & Hnd); [constructor|].
    repeat split; exists rs'; now rewrite Hrs.
  - rewrite (@migrate_first_start env d Hio Hm Ho); repeat split.
    exists []; split; [reflexivity | constructor].
Qed.

Lemma migrate_completes_witness :
  let d' := db (snd (run (migrateMemoryTable (offline 0)) legacy)) in
  migrated d' /\ memory_old d' = None /\ history d' = history legacy.
Proof. apply migrate_completes; [exact (offline_sound 0) | reflexivity]. Defined.

(** X7.  Which rows survive the migration.  With a working storage layer and
    no left-over [memory_old], the migrated table holds, for every (user,
    key), exactly the first of the rows the old table had for it, and none
    when it had none. *)
Theorem migrate_keeps_first_row (env : Env) (d : database) (t : table) (u k : string) :
  storage_sound env -> memory d = Some t -> memory_old d = None ->
  fact_rows (db (snd (run (migrateMemoryTable env) d))) u k =
  firstn 1 (filter (same_key u k) (rows t)).
Proof.
  intros Hio Hm Ho; rewrite (@migrate_upgrade env d t Hio Hm Ho).
  unfold fact_rows; cbn [memory].
  now rewrite copy_first by constructor.
Qed.

Lemma migrate_keeps_first_row_witness :
  fact_rows (db (snd (run (migrateMemoryTable (offline 0)) legacy))) "u1" "name" =
  [Fact "u1" "name" "Alex"].
Proof.
  apply (@migrate_keeps_first_row (offline 0) legacy
           (Table false [Fact "u1" "name" "Alex"; Fact "u1" "name" "Sam";
                         Fact "u2" "name" "Kim"]) "u1" "name");
    [exact (offline_sound 0) | reflexivity | reflexivity].
Defined.

(** A save on a store that refuses the upsert: the unhandled error ends the
    process and the store is as it was. *)
Lemma save_fails (env : Env) (u k v e : string) (d : database) :
  complete env (Upsert u k v) d = inl e ->
  snd (run (saveFact env u k v ;;; settle env) d) =
  World d [Sql (Upsert u k v); Uncaught e] [].
Proof.
  intros C; unfold run, bind; rewrite saveFact_eq; cbn [db trace inflight app].
  unfold settle; cbn [db trace inflight List.length]; rewrite settle_from_one.
  now rewrite C.
Qed.

(** X8.  A left-over [memory_old] blocks the migration.  When both tables
    exist, the rename fails with an error that is not "no such table": the
    migration stops there, sends neither the create, the copy nor the drop
    statement, and leaves the database as it was.  If the fact table is a
    legacy one, it stays without the constraint: the upsert of any later
    [saveFact] is refused, which leaves the store as it was and, the
    statement having no callback, ends the process with the unhandled
    error. *)
Theorem migrate_blocked_by_leftover (env : Env) (d : database) (t old : table) :
  storage_sound env -> memory d = Some t -> memory_old d = Some old ->
  let w := snd (run (migrateMemoryTable env) d) in
  db w = d /\
  trace w = [Sql PragmaTableInfo; Sql AlterRename;
             Console Error
               ["Error renaming memory table:";
                "SQLITE_ERROR: there is already another table or index with this name: memory_old"]] /\
  (uniq t = false ->
   forall u k v,
     let w' := snd (run (saveFact env u k v ;;; settle env) (db w)) in
     db w' = d /\ exited w').
Proof.
  intros Hio Hm Ho; cbn zeta.
  rewrite (@migrate_stops_at_leftover env d t old Hio Hm Ho); cbn [snd db trace].
  split; [reflexivity|]; split; [reflexivity|]; intros Hu u k v.
  rewrite (@save_fails env u k v
             "SQLITE_ERROR: ON CONFLICT clause does not match any PRIMARY KEY or UNIQUE constraint" d).
  - split; [reflexivity|]; eexists; cbn [trace]; right; now left.
  - unfold complete; rewrite Hio; cbn [Store.execute]; now rewrite Hm, Hu.
Qed.

Lemma migrate_blocked_by_leftover_witness :
  let d := Database (memory legacy) (Some (Table false [])) [] in
  db (snd (run (migrateMemoryTable (offline 0)) d)) = d /\
  exited (snd (run (saveFact (offline 0) "u1" "name" "Ann" ;;; settle (offline 0))
                   (db (snd (run (migrateMemoryTable (offline 0)) d))))).
Proof.
  destruct (@migrate_blocked_by_leftover (offline 0)
              (Database (memory legacy) (Some (Table false [])) [])
              (Table false [Fact "u1" "name" "Alex"; Fact "u1" "name" "Sam";
                            Fact "u2" "name" "Kim"]) (Table false [])
              (offline_sound 0) eq_refl eq_refl) as (H1 & _ & H3).
  split; [exact H1 | exact (proj2 (H3 eq_refl "u1" "name" "Ann"))].
Defined.

(** X9.  A failed create leaves no fact table.  When the rename has worked
    and the create statement fails, the migration stops with the rows parked
    in [memory_old] and no [memory] table.  From then on every [getFacts]
    answers the empty dictionary, and the upsert of every [saveFact] fails,
    which leaves the store as it was and ends the process with the unhandled
    error. *)
Theorem migrate_create_failure (env : Env) (d : database) (t : table) (e : string) :
  io_error env PragmaTableInfo = None ->
  io_error env AlterRename = None ->
  io_error env CreateMemory = Some e ->
  memory d = Some t -> memory_old d = None ->
  let d' := db (snd (run (migrateMemoryTable env) d)) in
  memory d' = None /\ memory_old d' = Some t /\
  (forall env' u, fst (run (getFacts env' u) d') = JsObject.empty) /\
  (forall env' u k v,
     let w' := snd (run (saveFact env' u k v ;;; settle env') d') in
     db w' = d' /\ exited w').
Proof.
  intros H0 H1 H2 Hm Ho; cbn zeta.
  rewrite (@migrate_stops_at_create env d t e H0 H1 H2 Hm Ho); cbn [snd db memory memory_old].
  repeat split.
  - intros env' u; unfold run; rewrite getFacts_eq, db_all_eq; cbn [fst memory].
    now destruct (io_error env' (SelectFacts u)).
  - destruct (complete env' (Upsert u k v) (Database None (Some t) (history d)))
      as [e'|d1] eqn:C; [now rewrite (@save_fails env' u k v e' _ C)|].
    unfold complete in C; destruct (io_error env' _); discriminate.
  - destruct (complete env' (Upsert u k v) (Database None (Some t) (history d)))
      as [e'|d1] eqn:C.
    + rewrite (@save_fails env' u k v e' _ C); eexists; cbn [trace]; right; now left.
    + unfold complete in C; destruct (io_error env' _); discriminate.
Qed.

Lemma migrate_create_failure_witness :
  let d' := db (snd (run (migrateMemoryTable (failing_at CreateMemory "SQLITE_FULL: database or disk is full" 0))
                         alex_db)) in
  memory d' = None /\
  memory_old d' = Some (Table true [Fact "u1" "name" "Alex"]) /\
  (forall env' u, fst (run (getFacts env' u) d') = JsObject.empty) /\
  (forall env' u k v,
     let w' := snd (run (saveFact env' u k v ;;; settle env') d') in
     db w' = d' /\ exited w').
Proof.
  apply (@migrate_create_failure
           (failing_at CreateMemory "SQLITE_FULL: database or disk is full" 0)
           alex_db (Table true [Fact "u1" "name" "Alex"])
           "SQLITE_FULL: database or disk is full"); reflexivity.
Defined.

(* ================================================================== *)
(** * The name a message gives *)
(* ================================================================== *)

Section NameFacts.

Lemma substring_prefix (a b : string) : substring 0 (String.length a) (a ++ b) = a.
Proof.
  induction a as [|c a IH]; cbn [String.length append substring].
  - now destruct b.
  - now rewrite IH.
Qed.

Lemma consumed_app (a b : string) : consumed (a ++ b) b = a.
Proof.
  unfold consumed; rewrite length_append.
  replace (String.length a + String.length b - String.length b) with (String.length a) by lia.
  apply substring_prefix.
Qed.

Variable icase : bool.
Variable ranges : list (ascii * ascii).

(** The optional rounds of a repeated class eat a run of class characters. *)
Lemma rep_max_class (more : nat) (s : string) (caps : captures) (k : cont) (r : result) :
  rep_max (rx icase (Class ranges)) more s caps k = Some r ->
  exists pre s', s = pre ++ s' /\ String.length pre <= more /\
                 all_chars (class_match icase ranges) pre = true /\
                 k s' caps = Some r.
Proof.
  revert s; induction more as [|more IH]; intros s H; cbn [rep_max] in H.
  - exists "", s; repeat split; [cbn; lia | assumption].
  - destruct (rx icase (Class ranges) s caps _) as [r'|] eqn:E.
    + inversion H; subst r'; cbn [rx] in E.
      destruct s as [|d s]; [discriminate|].
      destruct (class_match icase ranges d) eqn:Ed; [|discriminate].
      apply IH in E as (pre & s' & -> & Hlen & Hall & Hk).
      exists (String d pre), s'; repeat split; cbn; [lia | now rewrite Ed | assumption].
    + exists "", s; repeat split; [cbn; lia | assumption].
Qed.

Lemma rep_min_class (lo more : nat) (s : string) (caps : captures) (k : cont) (r : result) :
  rep_min (rx icase (Class ranges)) lo more s caps k = Some r ->
  exists pre s', s = pre ++ s' /\ lo <= String.length pre <= lo + more /\
                 all_chars (class_match icase ranges) pre = true /\
                 k s' caps = Some r.
Proof.
  revert s; induction lo as [|lo IH]; intros s H; cbn [rep_min] in H.
  - apply rep_max_class in H as (pre & s' & -> & Hlen & Hall & Hk).
    exists pre, s'; repeat split; try assumption; lia.
  - cbn [rx] in H; destruct s as [|d s]; [discriminate|].
    destruct (class_match icase ranges d) eqn:Ed; [|discriminate].
    apply IH in H as (pre & s' & -> & Hlen & Hall & Hk).
    exists (String d pre), s'; repeat split; cbn; try lia; [now rewrite Ed | assumption].
Qed.

End NameFacts.

Section TrimFacts.

Variable p : ascii -> bool.

Lemma trimStart_all (s : string) :
  all_chars p s = true -> all_chars p (trimStart s) = true.
Proof.
  induction s as [|c s IH]; [trivial|]; cbn [trimStart all_chars]; intros H.
  destruct (is_space c); [|exact H].
  apply andb_true_iff in H as [_ H]; now apply IH.
Qed.

Lemma trimEnd_all (s : string) :
  all_chars p s = true -> all_chars p (trimEnd s) = true.
Proof.
  induction s as [|c s IH]; [trivial|]; cbn [trimEnd all_chars]; intros H.
  apply andb_true_iff in H as [Hc H]; specialize (IH H).
  destruct (trimEnd s); [destruct (is_space c)|]; cbn [all_chars] in *;
    rewrite ?Hc; auto.
Qed.

Lemma trimStart_length (s : string) : String.length (trimStart s) <= String.length s.
Proof.
  induction s as [|c s IH]; [reflexivity|]; cbn [trimStart].
  destruct (is_space c); cbn [String.length]; lia.
Qed.

Lemma trimEnd_length (s : string) : String.length (trimEnd s) <= String.length s.
Proof.
  induction s as [|c s IH]; [reflexivity|]; cbn [trimEnd].
  destruct (trimEnd s); [destruct (is_space c)|]; cbn [String.length] in *; lia.
Qed.

Lemma trimStart_first (s : string) (c : ascii) :
  first_char (trimStart s) = Some c -> is_space c = false.
Proof.
  induction s as [|d s IH]; [discriminate|]; cbn [trimStart].
  destruct (is_space d) eqn:E; [exact IH|]; cbn; intros H; now inversion H; subst.
Qed.

Lemma trimEnd_first (s : string) (c : ascii) :
  first_char (trimEnd s) = Some c -> first_char s = Some c.
Proof.
  destruct s as [|d s]; [discriminate|]; cbn [trimEnd].
  destruct (trimEnd s); [destruct (is_space d)|]; cbn; congruence.
Qed.

Lemma trimEnd_last (s : string) (c : ascii) :
  last_char (trimEnd s) = Some c -> is_space c = false.
Proof.
  induction s as [|d s IH]; [discriminate|]; cbn [trimEnd].
  destruct (trimEnd s) as [|e t] eqn:E.
  - destruct (is_space d) eqn:Ed; cbn; [discriminate|].
    intros H; now inversion H; subst.
  - exact IH.
Qed.

Lemma trim_trimmed (s : string) : trimmed (trim s).
Proof.
  unfold trimmed, trim; split; intros c H.
  - apply trimEnd_first in H; now apply trimStart_first in H.
  - now apply trimEnd_last in H.
Qed.

End TrimFacts.

Lemma name_class (c : ascii) :
  class_match true [("A", "Z"); ("a", "z"); (" ", " ")]%char c = name_char c.
Proof. destruct c as [[] [] [] [] [] [] [] []]; reflexivity. Qed.

Lemma all_chars_ext (p q : ascii -> bool) (s : string) :
  (forall c, p c = q c) -> all_chars p s = all_chars q s.
Proof.
  intros H; induction s as [|c s IH]; [reflexivity|]; cbn [all_chars].
  now rewrite H, IH.
Qed.

(** What group 1 of a match of the name pattern holds. *)
Lemma re_my_name_group (message : string) (m : result) :
  exec true re_my_name message = Some m ->
  1 <= String.length (group 1 m) <= 40 /\ all_chars name_char (group 1 m) = true.
Proof.
  intros H; apply exec_from_here in H as (s0 & H).
  unfold match_here, re_my_name in H; rewrite rx_cat in H.
  apply rx_from_cont in H as (s1 & c1 & H); rewrite rx_group in H.
  change (rx true (Rep (Class [("A", "Z"); ("a", "z"); (" ", " ")]%char) 1 40))
    with (rep_min (rx true (Class [("A", "Z"); ("a", "z"); (" ", " ")]%char)) 1 39) in H.
  apply rep_min_class in H as (pre & s2 & -> & Hlen & Hall & H).
  inversion H; subst m; cbn [group snd capture Nat.eqb].
  rewrite consumed_app; split; [lia|].
  now rewrite <- (all_chars_ext _ _ pre name_class).
Qed.

(** X3.  The shape of a stored name.  Whatever the message, the name the chat
    route stores for a match of "my name is ..." has at most forty
    characters, all of them letters or spaces, and neither begins nor ends
    with a space (it may be empty). *)
Theorem captured_name_shape (message : string) (m : result) :
  exec true re_my_name message = Some m ->
  String.length (trim (group 1 m)) <= 40 /\
  all_chars name_char (trim (group 1 m)) = true /\
  trimmed (trim (group 1 m)).
Proof.
  intros H; apply re_my_name_group in H as [[_ Hlen] Hall]; repeat split.
  - unfold trim.
    pose proof (trimEnd_length (trimStart (group 1 m))).
    pose proof (trimStart_length (group 1 m)); lia.
  - now apply trimEnd_all, trimStart_all.
  - apply trim_trimmed.
  - apply trim_trimmed.
Qed.

Lemma captured_name_shape_witness :
  exists m, exec true re_my_name "hello, my name is  Mary Ann  !" = Some m /\
            trim (group 1 m) = "Mary Ann" /\
            String.length (trim (group 1 m)) <= 40 /\
            all_chars name_char (trim (group 1 m)) = true /\
            trimmed (trim (group 1 m)).
Proof.
  eexists; split; [reflexivity|]; split; [reflexivity|].
  apply (@captured_name_shape "hello, my name is  Mary Ann  !"); reflexivity.
Defined.

(* ================================================================== *)
(** * Telling the name, then asking for it *)
(* ================================================================== *)

(** The fact table after a request that gives a name. *)
Lemma post_stores_name (env : Env) (u m : string) (nm : result) (d : database)
      (rs : list fact) :
  storage_sound env -> memory d = Some (Table true rs) -> truthy u = true ->
  exec true re_my_name m = Some nm ->
  memory (db (snd (run (post env u m) d))) =
  Some (Table true (upsert u "name" (trim (group 1 nm)) rs)).
Proof.
  intros Hio Hm Hu Hx.
  rewrite (@post_lands env u m d rs Hio Hm Hu (@name_message_not_empty m nm Hx)).
  now rewrite Hx.
Qed.

(** X15.  A name told is the name recalled.  On a migrated store with a
    working storage layer, after a request whose message gives a non-empty
    name, a later name question of the same user (one that gives no name
    itself) is answered "Your name is <name>.", with [simulated: true]. *)
Theorem name_told_then_asked
        (env : Env) (u m1 m2 : string) (nm : result) (d : database) :
  storage_sound env -> migrated d -> truthy u = true ->
  exec true re_my_name m1 = Some nm -> truthy (trim (group 1 nm)) = true ->
  test true re_what_name m2 = true -> exec true re_my_name m2 = None ->
  json (fst (run (post env u m2) (db (snd (run (post env u m1) d))))) =
  ReplyJson ("Your name is " ++ trim (group 1 nm) ++ ".") (detectTone m2) true.
Proof.
  intros Hio (rs & Hm & Hnd) Hu Hx Hn Hq Hx2.
  pose proof (@post_stores_name env u m1 nm d rs Hio Hm Hu Hx) as Hd1.
  rewrite (@post_run env u m2 _ Hu (@question_not_empty m2 Hq)); unfold answer.
  rewrite Hq; cbn [fst json].
  unfold known_facts; rewrite Hx2.
  rewrite (@getFacts_of_table env u _ _ (Hio _) Hd1).
  rewrite (@fold_assign_single "name" (trim (group 1 nm))).
  - cbn [recall_reply]; now rewrite Hn.
  - discriminate.
  - now rewrite select_by_key; cbn [rows]; rewrite upsert_single.
Qed.

Lemma name_told_then_asked_witness :
  json (fst (run (post (offline 0) "u1" "what is my name?")
                 (db (snd (run (post (offline 0) "u1" "Hi, my name is Alex") ready))))) =
  ReplyJson "Your name is Alex." neutral true.
Proof.
  apply (@name_told_then_asked (offline 0) "u1" "Hi, my name is Alex" "what is my name?"
           ("my name is Alex", [(1, "Alex")]) ready (offline_sound 0) ready_migrated);
    reflexivity.
Defined.

(* ================================================================== *)
(** * The name question pattern, spelled out *)
(* ================================================================== *)

Section QuestionFacts.

(** With the [i] flag a character that is not an upper-case letter matches
    exactly the characters whose ASCII lower case it is. *)
Lemma chr_eq_lower (c d : ascii) :
  not_upper c = true -> chr_eq true c d = Ascii.eqb c (lower_char d).
Proof.
  pose proof (by_cases2
    (fun c d => implb (not_upper c)
                      (Bool.eqb (chr_eq true c d) (Ascii.eqb c (lower_char d))))
    eq_refl c d) as H; cbv beta in H.
  intros Hc; rewrite Hc in H; now apply Bool.eqb_prop in H.
Qed.

Lemma drop_lower (n : nat) (s : string) :
  ascii_lower (drop n s) = drop n (ascii_lower s).
Proof.
  revert s; induction n as [|n IH]; intros s; [reflexivity|].
  destruct s as [|c s]; [reflexivity | apply IH].
Qed.

Lemma prefix_app (a b s : string) :
  prefix (a ++ b) s = prefix a s && prefix b (drop (String.length a) s).
Proof.
  revert s; induction a as [|c a IH]; intros s.
  - now rewrite prefix_nil.
  - destruct s as [|d s]; [reflexivity|]; cbn [append prefix String.length drop].
    destruct (ascii_dec c d); [apply IH | reflexivity].
Qed.

Lemma ok_lit (w s : string) (caps : captures) (k : cont) :
  all_chars not_upper w = true ->
  ok (rx true (lit w) s caps k) =
  prefix w (ascii_lower s) && ok (k (drop (String.length w) s) caps).
Proof.
  revert s; induction w as [|c w IH]; intros s Hw.
  - now rewrite prefix_nil.
  - cbn [all_chars] in Hw; apply andb_true_iff in Hw as [Hc Hw].
    destruct s as [|d s]; [reflexivity|].
    cbn [lit rx ascii_lower prefix String.length drop]; rewrite (@chr_eq_lower c d Hc).
    destruct (ascii_dec c (lower_char d)) as [->|Hne].
    + rewrite Ascii.eqb_refl; now apply IH.
    + apply Ascii.eqb_neq in Hne; now rewrite Hne.
Qed.

Lemma ok_chr (c : ascii) (s : string) (caps : captures) (k : cont) :
  not_upper c = true ->
  ok (rx true (Chr c) s caps k) =
  prefix (String c "") (ascii_lower s) &&
  ok (k (drop (String.length (String c "")) s) caps).
Proof.
  intros Hc; rewrite <- (@ok_lit (String c "") s caps k)
    by (cbn [all_chars]; now rewrite Hc).
  reflexivity.
Qed.

Lemma ok_alt (r1 r2 : regex) (s : string) (caps : captures) (k : cont) :
  ok (rx true (Alt r1 r2) s caps k) =
  ok (rx true r1 s caps k) || ok (rx true r2 s caps k).
Proof. cbn [rx]; now destruct (rx true r1 s caps k). Qed.

Lemma ok_opt (r : regex) (s : string) (caps : captures) (k : cont) :
  ok (rx true (Opt r) s caps k) = ok (rx true r s caps k) || ok (k s caps).
Proof.
  unfold Opt; cbn [rx rep_min rep_max Nat.sub].
  change (fun s' caps' => k s' caps') with k.
  now destruct (rx true r s caps k).
Qed.

(** Where the question pattern matches at the very start of [s]. *)
Lemma question_here (s : string) :
  ok (match_here true re_what_name s) =
  existsb (fun p => prefix p (ascii_lower s)) name_questions.
Proof.
  unfold match_here, re_what_name.
  rewrite rx_cat, ok_lit by reflexivity.
  rewrite rx_cat, ok_opt, rx_group, rx_cat, rx_group, ok_alt.
  rewrite ok_chr, ok_lit by reflexivity.
  rewrite !ok_chr by reflexivity.
  rewrite !rx_cat, !ok_lit by reflexivity.
  rewrite !ok_opt; cbn [ok]; rewrite !orb_true_r, !andb_true_r.
  rewrite !drop_lower.
  unfold name_questions; cbn [existsb]; rewrite orb_false_r.
  change "what's my name" with ("what" ++ "'" ++ "s" ++ " my name").
  change "what is my name" with ("what" ++ " i" ++ "s" ++ " my name").
  change "what my name" with ("what" ++ " my name").
  rewrite !prefix_app.
  destruct (prefix "what" (ascii_lower s)); cbn [andb orb]; [|reflexivity].
  now rewrite orb_assoc.
Qed.

(** The pattern, with its [i] flag, finds the three phrases in the text with
    its ASCII letters in lower case. *)
Lemma question_ascii (message : string) :
  test true re_what_name message =
  existsb (fun p => includes p (ascii_lower message)) name_questions.
Proof.
  unfold test; induction message as [|c s IH].
  - reflexivity.
  - cbn [exec ascii_lower].
    rewrite (existsb_same _ _ name_questions
               (fun p => includes_cons p (lower_char c) (ascii_lower s))).
    rewrite existsb_orb.
    pose proof (question_here (String c s)) as H; cbn [ascii_lower] in H.
    rewrite <- H, <- IH.
    now destruct (match_here true re_what_name (String c s)).
Qed.

End QuestionFacts.

(** X2.  Which messages are name questions.  The pattern matches exactly
    the messages that contain, in any letter case, "what's my name", "what is
    my name" or "what my name"; the question mark plays no part, and "whats
    my name" is not one of them. *)
Theorem name_question_phrases (message : string) :
  test true re_what_name message =
  existsb (fun p => includes p (toLowerCase message)) name_questions.
Proof.
  rewrite question_ascii; unfold name_questions; cbn [existsb].
  now rewrite !(fun p Hk Hn => @includes_lower_same p message Hk Hn) by reflexivity.
Qed.

(* ================================================================== *)
(** * The name across the two routes *)
(* ================================================================== *)

(** X16.  A name told shows in the memory route.  On a migrated store with a
    working storage layer, after a chat request whose message gives a name,
    the memory route of that user answers 200 with a dictionary whose
    "name" is the trimmed name, and leaves the database as it found it. *)
Theorem name_told_then_listed (env : Env) (u m : string) (nm : result) (d : database) :
  storage_sound env -> migrated d -> truthy u = true ->
  exec true re_my_name m = Some nm ->
  let d1 := db (snd (run (post env u m) d)) in
  exists facts,
    fst (run (memory_route env u) d1) = Response 200 (FactsJson facts) /\
    JsObject.get "name" facts = Some (trim (group 1 nm)) /\
    db (snd (run (memory_route env u) d1)) = d1.
Proof.
  intros Hio (rs & Hm & Hnd) Hu Hx; cbn zeta.
  pose proof (@post_stores_name env u m nm d rs Hio Hm Hu Hx) as Hd1.
  exists (fst (run (getFacts env u) (db (snd (run (post env u m) d))))).
  repeat split.
  - unfold run, memory_route, bind; now destruct (getFacts env u _).
  - rewrite (@getFacts_of_table env u _ _ (Hio _) Hd1).
    apply (@fold_assign_single "name" (trim (group 1 nm))); [discriminate|].
    now rewrite select_by_key; cbn [rows]; rewrite upsert_single.
  - unfold run, memory_route, bind; now rewrite getFacts_eq.
Qed.

Lemma name_told_then_listed_witness :
  exists facts,
    fst (run (memory_route (offline 0) "u1")
             (db (snd (run (post (offline 0) "u1" "my name is Alex") ready)))) =
    Response 200 (FactsJson facts) /\
    JsObject.get "name" facts = Some "Alex".
Proof.
  destruct (@name_told_then_listed (offline 0) "u1" "my name is Alex"
              ("my name is Alex", [(1, "Alex")]) ready
              (offline_sound 0) ready_migrated eq_refl eq_refl)
    as (facts & H1 & H2 & _).
  exists facts; split; assumption.
Defined.

Lemma upsert_needs_table (env : Env) (u k v : string) (d : database) :
  memory d = None -> exists e, complete env (Upsert u k v) d = inl e.
Proof.
  intros Hm; unfold complete; destruct (io_error env _) as [e|]; [now exists e|].
  cbn [Store.execute]; rewrite Hm; now eexists.
Qed.

Lemma complete_insert_memory (env : Env) (e : entry) (d d1 : database) :
  complete env (InsertHistory e) d = inr d1 -> memory d1 = memory d.
Proof.
  unfold complete; destruct (io_error env _); [discriminate|].
  cbn [Store.execute]; intros H; now inversion H.
Qed.

(** X17.  Without a fact table nothing is remembered.  On a store that has no
    [memory] table (a migration stopped after the rename), a well-formed
    request leaves the store without one.  A name question that gives no name
    itself is answered with the don't-know sentence, status 200, and changes
    nothing.  A message that gives a name cannot be stored: its upsert fails,
    and the statement having no callback, the unhandled error ends the
    process. *)
Theorem name_lost_without_table (env : Env) (u m : string) (d : database) :
  memory d = None -> truthy u = true -> truthy m = true ->
  let w := snd (run (post env u m) d) in
  memory (db w) = None /\
  (test true re_what_name m = true -> exec true re_my_name m = None ->
   fst (run (post env u m) d) = Response 200 (ReplyJson dont_know (detectTone m) true) /\
   w = World d [Sql (SelectFacts u)] []) /\
  (forall nm, exec true re_my_name m = Some nm -> exited w).
Proof.
  intros Hd Hu Hm; cbn zeta; split; [|split].
  - rewrite (@post_db env u m d Hu Hm).
    apply (@settle_from_inv env (fun d0 => memory d0 = None)); [|assumption].
    intros s d0 d1 Hin Hd0 C; apply sent_shape in Hin as [(v & ->)| ->].
    + destruct (@upsert_needs_table env u "name" v d0 Hd0) as (e & He); congruence.
    + now rewrite (complete_insert_memory _ _ _ C).
  - intros Hq Hx; rewrite (@post_run env u m d Hu Hm); unfold answer; cbn [fst snd].
    rewrite Hq, known_name; unfold name_on_record, request_trace, sent, name_upsert.
    rewrite Hx, Hq, Hd; cbn [app map].
    split; [now destruct (io_error env _) | now rewrite settle_none].
  - intros nm Hx; rewrite (@post_run env u m d Hu Hm); cbn [snd].
    unfold sent, name_upsert, settle; rewrite Hx; cbn [db trace inflight].
    destruct (@upsert_needs_table env u "name" (trim (group 1 nm)) d Hd) as (e & He).
    destruct (test true re_what_name m); cbn [app List.length].
    + rewrite settle_from_one, He; exists e; cbn [trace]; apply in_or_app; right; now left.
    + rewrite settle_from_two, He.
      destruct (Nat.eqb (lands env 2 mod 2) 0);
        [exists e; cbn [trace]; apply in_or_app; right; now left|].
      destruct (complete env (InsertHistory _) d) as [e1|d1] eqn:C;
        [exists e1; cbn [trace]; apply in_or_app; right; now left|].
      destruct (@upsert_needs_table env u "name" (trim (group 1 nm)) d1) as (e2 & He2);
        [now rewrite (complete_insert_memory _ _ _ C)|].
      rewrite He2; exists e2; cbn [trace]; apply in_or_app; right; now left.
Qed.

Lemma name_lost_without_table_witness :
  let d := Database None (memory alex_db) [] in
  exited (snd (run (post (offline 0) "u1" "my name is Alex") d)) /\
  fst (run (post (offline 0) "u1" "what is my name?") d) =
  Response 200 (ReplyJson dont_know neutral true).
Proof.
  split.
  - apply (proj2 (proj2 (@name_lost_without_table (offline 0) "u1" "my name is Alex"
                           (Database None (memory alex_db) []) eq_refl eq_refl eq_refl))
                 ("my name is Alex", [(1, "Alex")])); reflexivity.
  - apply (proj1 (proj2 (@name_lost_without_table (offline 0) "u1" "what is my name?"
                           (Database None (memory alex_db) []) eq_refl eq_refl eq_refl)));
      reflexivity.
Defined.
